(** * Symbol search queries of pkgsite: the query builder and what its
    statements select

    The Go package [symbolsearch] builds three SQL statements out of string
    templates.  This development has these layers:

    - [Go]: the string functions of the package, as they are written
      ([fmt.Sprintf], [strings.ReplaceAll], [indent], [processArg],
      [constructQuery], ...), producing the statement texts;
    - [Sql]: the syntax of the SQL fragment the templates use, a lexer for
      statement texts, and the proofs that each text built by [Go] is,
      token for token, the statement whose meaning is given afterwards;
    - [Pg]: the string functions of the store that the statements call
      (replace, split_part, substring with a pattern);
    - [Sem]: the meaning of those statements over a corpus of rows, with
      the text-search engine (to_tsquery, @@, ts_rank) as an interface and
      numbers as real numbers;
    - [Plain]: a small engine on lists of words, for the examples.

    The definitions come first; the facts about them follow, and at the
    end the properties C1 to C10. *)

From Stdlib Require Import String Ascii List Bool Arith ZArith Lia DecimalString.
From Stdlib Require Import QArith Qreals Reals Lra ROrderedType.
From Stdlib Require Import Sorted Permutation.
Import ListNotations.

Local Open Scope string_scope.

(** ** Characters and small string helpers *)

Definition tab : string := String (ascii_of_nat 9) EmptyString.
Definition nl : string := String (ascii_of_nat 10) EmptyString.

Fixpoint tabs (n : nat) : string :=
  match n with
  | O => EmptyString
  | S k => tab ++ tabs k
  end.

(** The decimal digits of a natural number, as Go's [%d] and Go's operand
    indexes write them. *)
Definition digit_of_ascii (c : ascii) : option nat :=
  let n := nat_of_ascii c in
  if (48 <=? n)%nat && (n <=? 57)%nat then Some (n - 48)%nat else None.

(** [replace_from old new skip s]: one left-to-right pass over [s]; at an
    occurrence of [old] the replacement is written and the rest of the
    occurrence ([skip] characters) is passed over, so that matches never
    overlap. *)
Fixpoint replace_from (old new : string) (skip : nat) (s : string) : string :=
  match s with
  | EmptyString => EmptyString
  | String c s' =>
      match skip with
      | S k => replace_from old new k s'
      | O =>
          if String.prefix old s
          then new ++ replace_from old new (String.length old - 1) s'
          else String c (replace_from old new 0 s')
      end
  end.

(** ** The Go layer *)

Module Go.

(** *** strings.HasPrefix and strings.ReplaceAll *)

Definition HasPrefix (s pre : string) : bool := String.prefix pre s.

(** With an empty [old], Go writes [new] before every character and once
    more at the end. *)
Fixpoint intersperse_all (new s : string) : string :=
  match s with
  | EmptyString => new
  | String c s' => new ++ String c (intersperse_all new s')
  end.

Definition ReplaceAll (s old new : string) : string :=
  if (old =? "")%string then intersperse_all new s
  else replace_from old new 0 s.

(** *** fmt.Sprintf, for string operands

    The verbs the package uses are [%s] and [%[n]s]; [%%], a verb without
    operand, a bad verb, a bad index and surplus operands are written out
    the way package fmt reports them.  Flags, width and precision do not
    occur in the package and are not read. *)

Inductive fmt_state :=
| InText                 (* copying the format *)
| AfterPercent           (* a verb is expected *)
| InIndex (n : nat)      (* inside [n *)
| AfterBadIndex.         (* after a closing bracket of a bad index *)

Definition operand (args : list string) (argNum : nat) (verb : ascii) : string :=
  match nth_error args argNum with
  | Some a =>
      if Ascii.eqb verb "s" then a
      else "%!" ++ String verb ("(string=" ++ a ++ ")")
  | None => "%!" ++ String verb "(MISSING)"
  end.

Fixpoint extra_operands (args : list string) : string :=
  match args with
  | [] => ""
  | [a] => "string=" ++ a
  | a :: rest => "string=" ++ a ++ ", " ++ extra_operands rest
  end.

Fixpoint doPrintf (st : fmt_state) (args : list string) (argNum : nat)
    (reordered : bool) (format : string) : string :=
  match format with
  | EmptyString =>
      (match st with InText => "" | _ => "%!(NOVERB)" end) ++
      (if negb reordered && (argNum <? List.length args)%nat
       then "%!(EXTRA " ++ extra_operands (skipn argNum args) ++ ")"
       else "")
  | String c rest =>
      match st with
      | InText =>
          if Ascii.eqb c "%" then doPrintf AfterPercent args argNum reordered rest
          else String c (doPrintf InText args argNum reordered rest)
      | AfterPercent =>
          if Ascii.eqb c "%" then String "%" (doPrintf InText args argNum reordered rest)
          else if Ascii.eqb c "[" then doPrintf (InIndex 0) args argNum reordered rest
          else operand args argNum c ++ doPrintf InText args (S argNum) reordered rest
      | InIndex n =>
          match digit_of_ascii c with
          | Some d => doPrintf (InIndex (10 * n + d)) args argNum reordered rest
          | None =>
              if Ascii.eqb c "]" && (1 <=? n)%nat && (n <=? List.length args)%nat
              then doPrintf AfterPercent args (n - 1) true rest
              else if Ascii.eqb c "]"
              then doPrintf AfterBadIndex args argNum true rest
              else "%!" ++ String c "(BADINDEX)" ++ doPrintf InText args argNum true rest
          end
      | AfterBadIndex =>
          "%!" ++ String c "(BADINDEX)" ++ doPrintf InText args argNum true rest
      end
  end.

Definition Sprintf (format : string) (args : list string) : string :=
  doPrintf InText args 0 false format.

(** *** The package *)

Definition SymbolTextSearchConfiguration : string := "symbols".

(** [indent]: the loop [for i := 0; i <= n; i++] runs [n + 1] times for
    [n >= -1] and not at all below. *)
Definition indent (s : string) (n : Z) : string :=
  nl ++ Nat.iter (Z.to_nat (n + 1)) (fun s => tab ++ s) s.

Definition formatScore (s : string) : string :=
  Sprintf ("(" ++ nl ++ tabs 4 ++ "%s" ++ nl ++ tabs 3 ++ ")") [s].

Definition formatFilter (s : string) : string :=
  Sprintf ("(" ++ nl ++ tabs 3 ++ "%s" ++ nl ++ tabs 2 ++ ")") [s].

Definition formatMultiplier (s : string) : string :=
  indent (Sprintf "* %s" [s]) 3.

Definition splitOR : string := "replace($1, ' ', ' | ')".

(** [splitFirstDot] splits everything preceding the first dot in $1. *)
Definition splitFirstDot : string := "split_part($1, '.', 1)".

(** [processArg] wraps the parameter inside [arg] into
    [replace(<parameter>, '_', '-')]; the parameter is $1 unless [arg] is
    itself another $N. *)
Definition processArg (arg : string) : string :=
  let s := if (String.length arg =? 2)%nat && HasPrefix arg "$" then arg else "$1" in
  ReplaceAll arg s (Sprintf "replace(%s, '_', '-')" [s]).

Definition toTSQuery (arg : string) : string :=
  Sprintf "to_tsquery('%s', %s)" [SymbolTextSearchConfiguration; processArg arg].

(** The pattern is written in the Go source as an interpreted string
    literal, in which [\\] is one backslash: the statement text holds
    [E'[^.]*\.(.+)$']. *)
Definition dotSymbolArg : string := "substring($1 from E'[^.]*\.(.+)$')".

Definition filterSymbol : string :=
  Sprintf "s.tsv_name_tokens @@ %s" [toTSQuery "$1"].

Definition filterSymbolOR : string :=
  Sprintf "s.tsv_name_tokens @@ %s" [toTSQuery splitOR].

Definition filterPackageNameOrPath : string :=
  Sprintf "(sd.name=%s OR sd.package_path=%[1]s)" [splitFirstDot].

Definition filterPackageDotSymbol : string :=
  Sprintf "%s AND %s"
    [filterPackageNameOrPath;
     Sprintf (formatFilter "s.tsv_name_tokens @@ %s") [toTSQuery dotSymbolArg]].

Definition filterPackage : string :=
  Sprintf "sd.tsv_path_tokens @@ %s" [toTSQuery splitOR].

Definition filterMultiWord : string :=
  Sprintf "%s AND %s" [formatFilter filterSymbolOR; formatFilter filterPackage].

(** Popularity multiplier to increase ranking of popular packages. *)
Definition popularityMultiplier : string := "ln(exp(1)+sd.imported_by_count)".

Definition rankPathTokens : string :=
  Sprintf ("ts_rank(%s,%s,%s" ++ indent ")" 3)
    [indent "'{0.1, 0.2, 1.0, 1.0}'" 4;
     indent "sd.tsv_path_tokens" 4;
     indent (toTSQuery splitOR) 4].

Definition scoreMultiWord : string :=
  Sprintf "%s%s" [rankPathTokens; formatMultiplier popularityMultiplier].

(** The statement template, line by line: [line n s] is [s] after [n]
    tabs.  The raw literal of the source starts with a line break and ends
    without one. *)
Definition line (n : nat) (s : string) : string := tabs n ++ s ++ nl.

Definition symbolSearchBaseQuery : string :=
  nl ++
  line 0 "WITH results AS (" ++
  line 1 "SELECT" ++
  line 3 "s.name AS symbol_name," ++
  line 3 "sd.package_path," ++
  line 3 "sd.module_path," ++
  line 3 "sd.version," ++
  line 3 "sd.name AS package_name," ++
  line 3 "sd.synopsis," ++
  line 3 "sd.license_types," ++
  line 3 "sd.commit_time," ++
  line 3 "sd.imported_by_count," ++
  line 3 "ssd.package_symbol_id," ++
  line 3 "ssd.goos," ++
  line 3 "ssd.goarch," ++
  line 3 "%s AS score" ++
  line 1 "FROM symbol_search_documents ssd" ++
  line 1 "INNER JOIN search_documents sd ON sd.unit_id = ssd.unit_id" ++
  line 1 "INNER JOIN symbol_names s ON s.id = ssd.symbol_name_id" ++
  line 1 "WHERE %s" ++
  line 0 ")" ++
  line 0 "SELECT" ++
  line 1 "r.symbol_name," ++
  line 1 "r.package_path," ++
  line 1 "r.module_path," ++
  line 1 "r.version," ++
  line 1 "r.package_name," ++
  line 1 "r.synopsis," ++
  line 1 "r.license_types," ++
  line 1 "r.commit_time," ++
  line 1 "r.imported_by_count," ++
  line 1 "r.goos," ++
  line 1 "r.goarch," ++
  line 1 "ps.type AS symbol_type," ++
  line 1 "ps.synopsis AS symbol_synopsis" ++
  line 0 "FROM results r" ++
  line 0 "INNER JOIN package_symbols ps ON r.package_symbol_id = ps.id" ++
  line 0 "WHERE r.score > 0.1" ++
  line 0 "ORDER BY" ++
  line 1 "score DESC," ++
  line 1 "commit_time DESC," ++
  line 1 "symbol_name," ++
  line 1 "package_path" ++
  "LIMIT $2;".

(** [constructQuery] is used to construct a symbol search query.  When
    there is only one word in the query, popularity is the only score that
    matters. *)
Definition constructQuery (where_ : string) : string :=
  let score :=
    if (where_ =? filterMultiWord)%string
    then formatScore scoreMultiWord
    else popularityMultiplier in
  Sprintf symbolSearchBaseQuery [score; where_].

Definition rawLegacyQuerySymbol : string := constructQuery filterSymbol.
Definition rawLegacyQueryPackageDotSymbol : string := constructQuery filterPackageDotSymbol.
Definition rawLegacyQueryMultiWord : string := constructQuery filterMultiWord.

End Go.

(** ** The string functions of the store

    [replace], [split_part] and [substring(... from pattern)] are functions
    of PostgreSQL, not of the repository; they are written here after the
    PostgreSQL documentation, on byte strings. *)

Module Pg.

(** [replace(string, from, to)]: every occurrence of [from] is replaced; an
    empty [from] leaves the string as it is. *)
Definition replace (s from to : string) : string :=
  if (from =? "")%string then s else replace_from from to 0 s.

(** [fields_from sep skip s]: the fields of [s] between the occurrences of
    [sep], found left to right without overlap; there is always at least
    one field. *)
Fixpoint fields_from (sep : string) (skip : nat) (s : string) : list string :=
  match s with
  | EmptyString => [EmptyString]
  | String c s' =>
      match skip with
      | S k => fields_from sep k s'
      | O =>
          if String.prefix sep s
          then EmptyString :: fields_from sep (String.length sep - 1) s'
          else
            match fields_from sep 0 s' with
            | f :: fs => String c f :: fs
            | [] => [String c EmptyString]
            end
      end
  end.

Definition fields (sep s : string) : list string :=
  if (sep =? "")%string then [s] else fields_from sep 0 s.

(** [split_part(string, delimiter, n)]: the n-th field, counted from one,
    and the empty string when there are fewer fields. *)
Definition split_part (s delim : string) (n : positive) : string :=
  nth (Pos.to_nat n - 1) (fields delim s) EmptyString.

(** *** Regular expressions, as far as the package's pattern needs them

    A pattern is a sequence of pieces, each an atom with a quantifier, and
    may end with the anchor [$].  One parenthesised piece is the capture.
    Quantifiers are greedy and earlier pieces have priority, which is how
    PostgreSQL resolves a pattern whose quantifiers are all greedy. *)

Inductive atom :=
| AnyChar                  (* . *)
| NoneOf (cs : string)     (* [^cs] *)
| Exactly (c : ascii).

Inductive quantifier := Once | ZeroOrMore | OneOrMore.

Record piece := Piece { what : atom; how : quantifier; captured : bool }.

Record regex := Regex { pieces : list piece; anchored_end : bool }.

Fixpoint mem_char (c : ascii) (cs : string) : bool :=
  match cs with
  | EmptyString => false
  | String d cs' => Ascii.eqb c d || mem_char c cs'
  end.

Definition accepts (a : atom) (c : ascii) : bool :=
  match a with
  | AnyChar => true
  | NoneOf cs => negb (mem_char c cs)
  | Exactly d => Ascii.eqb c d
  end.

Definition keep (p : piece) (c : ascii) (r : string) : string :=
  if captured p then String c r else r.

(** [repeat_then p k s]: [p] as often as possible on [s], then [k]; when
    [k] fails, one repetition less. *)
Fixpoint repeat_then (p : piece) (k : string -> option string) (s : string)
    : option string :=
  match s with
  | EmptyString => k EmptyString
  | String c s' =>
      if accepts (what p) c then
        match repeat_then p k s' with
        | Some r => Some (keep p c r)
        | None => k s
        end
      else k s
  end.

Definition once_then (p : piece) (k : string -> option string) (s : string)
    : option string :=
  match s with
  | EmptyString => None
  | String c s' =>
      if accepts (what p) c then option_map (keep p c) (k s') else None
  end.

(** [match_here ps anchored s]: the capture of a match of the pieces that
    starts at the beginning of [s]. *)
Fixpoint match_here (ps : list piece) (anchored : bool) : string -> option string :=
  match ps with
  | [] =>
      fun s =>
        if anchored
        then (if (s =? "")%string then Some EmptyString else None)
        else Some EmptyString
  | p :: ps' =>
      let k := match_here ps' anchored in
      match how p with
      | Once => once_then p k
      | ZeroOrMore => repeat_then p k
      | OneOrMore => once_then p (repeat_then p k)
      end
  end.

(** The match that starts leftmost. *)
Fixpoint search (r : regex) (s : string) : option string :=
  match match_here (pieces r) (anchored_end r) s with
  | Some m => Some m
  | None =>
      match s with
      | EmptyString => None
      | String _ s' => search r s'
      end
  end.

(** [substring(string from pattern)]: the text matched by the parenthesised
    part of the pattern, NULL ([None]) when the pattern does not match. *)
Definition substring_from (s : string) (r : regex) : option string := search r s.

(** The pattern as text. *)
Definition is_special (c : ascii) : bool := mem_char c ".[]()*+?$^\|{}".

Definition atom_text (a : atom) : string :=
  match a with
  | AnyChar => "."
  | NoneOf cs => "[^" ++ cs ++ "]"
  | Exactly c => if is_special c then String "\" (String c "") else String c ""
  end.

Definition quantifier_text (q : quantifier) : string :=
  match q with
  | Once => ""
  | ZeroOrMore => "*"
  | OneOrMore => "+"
  end.

Definition piece_text (p : piece) : string :=
  let t := atom_text (what p) ++ quantifier_text (how p) in
  if captured p then "(" ++ t ++ ")" else t.

Definition regex_text (r : regex) : string :=
  String.concat "" (map piece_text (pieces r)) ++
  (if anchored_end r then "$" else "").

(** *** Decimal literals

    [decimal_value "0.1"] is 1/10: the digits before and after the point. *)
Fixpoint digits_value (acc : N) (places : nat) (after_point : bool) (s : string)
    : option (N * nat) :=
  match s with
  | EmptyString => Some (acc, places)
  | String c s' =>
      match digit_of_ascii c with
      | Some d =>
          digits_value (10 * acc + N.of_nat d)
            (if after_point then S places else places) after_point s'
      | None =>
          if Ascii.eqb c "." && negb after_point
          then digits_value acc places true s'
          else None
      end
  end.

Definition decimal_value (s : string) : option Q :=
  match s with
  | EmptyString => None
  | _ =>
      match digits_value 0 0 false s with
      | Some (n, places) => Some (Z.of_N n # Z.to_pos (10 ^ Z.of_nat places))
      | None => None
      end
  end.

(** An array literal ['{a, b, c}'] as text. *)
Definition array_text (items : list string) : string :=
  "{" ++ String.concat ", " items ++ "}".

End Pg.

(** ** The SQL layer: tokens, syntax, and the statements as syntax *)

Module Sql.

(** *** Lexical structure

    Outside quoted literals blanks only separate tokens.  A word is a run of
    letters, digits, [_], [.] and [$] (so [sd.name], [$1] and [0.1] are one
    word each).  A literal ['...'] gives its content; a literal [E'...'] is
    an escape string constant, whose content is read with backslash
    escapes: a backslash before [b f n r t] gives the control character,
    before any other character that character itself. *)

Inductive token :=
| Word (s : string)
| Quoted (s : string)
| Punct (c : ascii).

Definition is_blank (c : ascii) : bool :=
  let n := nat_of_ascii c in
  (n =? 32)%nat || (n =? 9)%nat || (n =? 10)%nat || (n =? 13)%nat.

Definition is_word_char (c : ascii) : bool :=
  let n := nat_of_ascii c in
  ((48 <=? n) && (n <=? 57))%nat || ((65 <=? n) && (n <=? 90))%nat ||
  ((97 <=? n) && (n <=? 122))%nat ||
  Ascii.eqb c "_" || Ascii.eqb c "." || Ascii.eqb c "$".

Definition is_quote (c : ascii) : bool := (nat_of_ascii c =? 39)%nat.

Definition escaped (c : ascii) : ascii :=
  if Ascii.eqb c "b" then ascii_of_nat 8
  else if Ascii.eqb c "f" then ascii_of_nat 12
  else if Ascii.eqb c "n" then ascii_of_nat 10
  else if Ascii.eqb c "r" then ascii_of_nat 13
  else if Ascii.eqb c "t" then ascii_of_nat 9
  else c.

Inductive lex_state :=
| Idle
| InWord (acc : string)
| InQuote (acc : string)
| InEscQuote (acc : string)        (* inside E'...' *)
| InEscape (acc : string).         (* inside E'...', after a backslash *)

Definition snoc (s : string) (c : ascii) : string := s ++ String c EmptyString.

Fixpoint lex_from (st : lex_state) (s : string) : list token :=
  match s with
  | EmptyString =>
      match st with
      | Idle => []
      | InWord acc => [Word acc]
      | InQuote acc | InEscQuote acc | InEscape acc => [Quoted acc]
      end
  | String c rest =>
      match st with
      | Idle =>
          if is_blank c then lex_from Idle rest
          else if is_word_char c then lex_from (InWord (String c EmptyString)) rest
          else if is_quote c then lex_from (InQuote EmptyString) rest
          else Punct c :: lex_from Idle rest
      | InWord acc =>
          if is_word_char c then lex_from (InWord (snoc acc c)) rest
          else if is_quote c then
            if (acc =? "E")%string then lex_from (InEscQuote EmptyString) rest
            else Word acc :: lex_from (InQuote EmptyString) rest
          else if is_blank c then Word acc :: lex_from Idle rest
          else Word acc :: Punct c :: lex_from Idle rest
      | InQuote acc =>
          if is_quote c then Quoted acc :: lex_from Idle rest
          else lex_from (InQuote (snoc acc c)) rest
      | InEscQuote acc =>
          if is_quote c then Quoted acc :: lex_from Idle rest
          else if Ascii.eqb c "\" then lex_from (InEscape acc) rest
          else lex_from (InEscQuote (snoc acc c)) rest
      | InEscape acc => lex_from (InEscQuote (snoc acc (escaped c))) rest
      end
  end.

Definition lex (s : string) : list token := lex_from Idle s.

(** *** Syntax

    The expressions that occur in the package's templates.  [Group] and
    [NGroup] are the parentheses the templates write. *)

Inductive text_expr :=
| Arg1                                                  (* $1 *)
| Replace (e : text_expr) (from to : string)            (* replace(e, 'from', 'to') *)
| SplitPart (e : text_expr) (delim : string) (n : positive)
                                                        (* split_part(e, 'delim', n) *)
| SubstringFrom (e : text_expr) (r : Pg.regex).         (* substring(e from E'r') *)

Inductive tsquery_expr :=
| ToTSQuery (config : string) (e : text_expr).          (* to_tsquery('config', e) *)

Inductive tsv_column := NameTokens | PathTokens.
Inductive text_column := PackageName | PackagePath.

Inductive filter :=
| Matches (c : tsv_column) (q : tsquery_expr)           (* c @@ q *)
| Equals (c : text_column) (e : text_expr)              (* c=e *)
| And (a b : filter)
| Or (a b : filter)
| Group (a : filter).

Inductive num_expr :=
| Num (literal : string)
| ImportedByCount                                       (* sd.imported_by_count *)
| Plus (a b : num_expr)
| Times (a b : num_expr)
| Exp (a : num_expr)
| Ln (a : num_expr)
| TsRank (weights : list string) (c : tsv_column) (q : tsquery_expr)
| NGroup (a : num_expr).

Inductive order_column := Score | CommitTime | SymbolName | PackagePathKey.
Inductive direction := Asc | Desc.

(** A statement of the shape of [symbolSearchBaseQuery]: the score and the
    filter of the inner query, and the floor, the ordering and the limit
    parameter of the outer one. *)
Record statement := Statement {
  score : num_expr;
  where_ : filter;
  floor : string;
  order_by : list (order_column * direction)
}.

(** *** From syntax to tokens *)

Definition comma : token := Punct ",".
Definition lpar : token := Punct "(".
Definition rpar : token := Punct ")".

Fixpoint text_tokens (e : text_expr) : list token :=
  match e with
  | Arg1 => [Word "$1"]
  | Replace e from to =>
      [Word "replace"; lpar] ++ text_tokens e ++
      [comma; Quoted from; comma; Quoted to; rpar]
  | SplitPart e delim n =>
      [Word "split_part"; lpar] ++ text_tokens e ++
      [comma; Quoted delim; comma;
       Word (NilZero.string_of_uint (Pos.to_uint n)); rpar]
  | SubstringFrom e r =>
      [Word "substring"; lpar] ++ text_tokens e ++
      [Word "from"; Quoted (Pg.regex_text r); rpar]
  end.

Definition tsquery_tokens (q : tsquery_expr) : list token :=
  match q with
  | ToTSQuery config e =>
      [Word "to_tsquery"; lpar; Quoted config; comma] ++ text_tokens e ++ [rpar]
  end.

Definition tsv_column_name (c : tsv_column) : string :=
  match c with
  | NameTokens => "s.tsv_name_tokens"
  | PathTokens => "sd.tsv_path_tokens"
  end.

Definition text_column_name (c : text_column) : string :=
  match c with
  | PackageName => "sd.name"
  | PackagePath => "sd.package_path"
  end.

Fixpoint filter_tokens (f : filter) : list token :=
  match f with
  | Matches c q => [Word (tsv_column_name c); Punct "@"; Punct "@"] ++ tsquery_tokens q
  | Equals c e => [Word (text_column_name c); Punct "="] ++ text_tokens e
  | And a b => filter_tokens a ++ [Word "AND"] ++ filter_tokens b
  | Or a b => filter_tokens a ++ [Word "OR"] ++ filter_tokens b
  | Group a => [lpar] ++ filter_tokens a ++ [rpar]
  end.

Fixpoint num_tokens (e : num_expr) : list token :=
  match e with
  | Num literal => [Word literal]
  | ImportedByCount => [Word "sd.imported_by_count"]
  | Plus a b => num_tokens a ++ [Punct "+"] ++ num_tokens b
  | Times a b => num_tokens a ++ [Punct "*"] ++ num_tokens b
  | Exp a => [Word "exp"; lpar] ++ num_tokens a ++ [rpar]
  | Ln a => [Word "ln"; lpar] ++ num_tokens a ++ [rpar]
  | TsRank weights c q =>
      [Word "ts_rank"; lpar; Quoted (Pg.array_text weights); comma;
       Word (tsv_column_name c); comma] ++ tsquery_tokens q ++ [rpar]
  | NGroup a => [lpar] ++ num_tokens a ++ [rpar]
  end.

Definition order_column_name (c : order_column) : string :=
  match c with
  | Score => "score"
  | CommitTime => "commit_time"
  | SymbolName => "symbol_name"
  | PackagePathKey => "package_path"
  end.

Definition order_key_tokens (k : order_column * direction) : list token :=
  match snd k with
  | Asc => [Word (order_column_name (fst k))]
  | Desc => [Word (order_column_name (fst k)); Word "DESC"]
  end.

Fixpoint order_tokens (ks : list (order_column * direction)) : list token :=
  match ks with
  | [] => []
  | [k] => order_key_tokens k
  | k :: ks' => order_key_tokens k ++ [comma] ++ order_tokens ks'
  end.

(** The parts of the template that carry rows through: the select lists
    and the joins. *)
Definition inner_select : string :=
  "WITH results AS ( SELECT s.name AS symbol_name, sd.package_path,
   sd.module_path, sd.version, sd.name AS package_name, sd.synopsis,
   sd.license_types, sd.commit_time, sd.imported_by_count,
   ssd.package_symbol_id, ssd.goos, ssd.goarch,".

Definition inner_from : string :=
  "AS score FROM symbol_search_documents ssd
   INNER JOIN search_documents sd ON sd.unit_id = ssd.unit_id
   INNER JOIN symbol_names s ON s.id = ssd.symbol_name_id
   WHERE".

Definition outer_select : string :=
  ") SELECT r.symbol_name, r.package_path, r.module_path, r.version,
   r.package_name, r.synopsis, r.license_types, r.commit_time,
   r.imported_by_count, r.goos, r.goarch, ps.type AS symbol_type,
   ps.synopsis AS symbol_synopsis
   FROM results r
   INNER JOIN package_symbols ps ON r.package_symbol_id = ps.id".

Definition statement_tokens (st : statement) : list token :=
  lex inner_select ++ num_tokens (score st) ++
  lex inner_from ++ filter_tokens (where_ st) ++
  lex outer_select ++
  [Word "WHERE"; Word "r.score"; Punct ">"; Word (floor st)] ++
  [Word "ORDER"; Word "BY"] ++ order_tokens (order_by st) ++
  [Word "LIMIT"; Word "$2"; Punct ";"].

(** *** The package's templates as syntax *)

(** What [processArg] makes of the parameter. *)
Definition normalized (e : text_expr) : text_expr := Replace e "_" "-".

Definition splitOR : text_expr := Replace (normalized Arg1) " " " | ".

Definition splitFirstDot : text_expr := SplitPart Arg1 "." 1.

(** The pattern of [filterPackageDotSymbol], as the store reads the escape
    string constant: [[^.]*], one character, the captured [(.+)], [$]. *)
Definition afterDot : Pg.regex :=
  Pg.Regex
    [Pg.Piece (Pg.NoneOf ".") Pg.ZeroOrMore false;
     Pg.Piece Pg.AnyChar Pg.Once false;
     Pg.Piece Pg.AnyChar Pg.OneOrMore true]
    true.

Definition toTSQuery (e : text_expr) : tsquery_expr := ToTSQuery "symbols" e.

Definition filterSymbol : filter := Matches NameTokens (toTSQuery (normalized Arg1)).

Definition filterSymbolOR : filter := Matches NameTokens (toTSQuery splitOR).

Definition filterPackageNameOrPath : filter :=
  Group (Or (Equals PackageName splitFirstDot) (Equals PackagePath splitFirstDot)).

Definition filterPackageDotSymbol : filter :=
  And filterPackageNameOrPath
      (Group (Matches NameTokens
                (toTSQuery (SubstringFrom (normalized Arg1) afterDot)))).

Definition filterPackage : filter := Matches PathTokens (toTSQuery splitOR).

Definition filterMultiWord : filter :=
  And (Group filterSymbolOR) (Group filterPackage).

Definition popularityMultiplier : num_expr :=
  Ln (Plus (Exp (Num "1")) ImportedByCount).

Definition rankPathTokens : num_expr :=
  TsRank ["0.1"; "0.2"; "1.0"; "1.0"] PathTokens (toTSQuery splitOR).

Definition scoreMultiWord : num_expr := Times rankPathTokens popularityMultiplier.

Definition baseOrder : list (order_column * direction) :=
  [(Score, Desc); (CommitTime, Desc); (SymbolName, Asc); (PackagePathKey, Asc)].

(** The three shapes of query the package offers. *)
Inductive strategy := BareSymbol | QualifiedReference | MultiWord.

Definition filter_of (s : strategy) : filter :=
  match s with
  | BareSymbol => filterSymbol
  | QualifiedReference => filterPackageDotSymbol
  | MultiWord => filterMultiWord
  end.

Definition score_of (s : strategy) : num_expr :=
  match s with
  | MultiWord => NGroup scoreMultiWord
  | _ => popularityMultiplier
  end.

Definition query (s : strategy) : statement :=
  Statement (score_of s) (filter_of s) "0.1" baseOrder.







(** The text the Go package holds for each shape. *)
Definition raw (s : strategy) : string :=
  match s with
  | BareSymbol => Go.rawLegacyQuerySymbol
  | QualifiedReference => Go.rawLegacyQueryPackageDotSymbol
  | MultiWord => Go.rawLegacyQueryMultiWord
  end.

End Sql.

(** ** Comparisons that order *)

(** [cmp] compares like a total order: it is antisymmetric, [Lt] is
    transitive, and elements that compare [Eq] compare alike with a
    third. *)
Record Ordering {A : Type} (cmp : A -> A -> comparison) : Prop := {
  ord_sym : forall a b, cmp b a = CompOpp (cmp a b);
  ord_lt_trans : forall a b c, cmp a b = Lt -> cmp b c = Lt -> cmp a c = Lt;
  ord_eq_left : forall a b c, cmp a b = Eq -> cmp a c = cmp b c
}.

(** One comparison, and a second one where the first sees no difference. *)
Definition lexi {A : Type} (c1 c2 : A -> A -> comparison) (a b : A) : comparison :=
  match c1 a b with
  | Eq => c2 a b
  | c => c
  end.

(** ** What the statements select

    The text-search engine of the store is an interface: the text-search
    vectors of the corpus, the queries [to_tsquery] builds from a
    configuration name and a query text, the match operator [@@] and
    [ts_rank].  The rank of the engine is never negative when the weights
    are not. *)

Module Sem.
Import Sql.

Local Open Scope R_scope.

Class TextSearch := {
  tsvector : Type;
  tsquery : Type;
  to_tsquery : string -> string -> tsquery;
  ts_match : tsvector -> tsquery -> bool;
  ts_rank : list R -> tsvector -> tsquery -> R;
  ts_rank_nonneg :
    forall ws v q, Forall (fun w => 0 <= w) ws -> 0 <= ts_rank ws v q
}.

Section Statements.
Context {engine : TextSearch}.

(** A row of the corpus: one symbol of one package for one build context,
    that is, a row of [symbol_search_documents] joined with its
    [search_documents], [symbol_names] and [package_symbols] rows. *)
Record Row := {
  symbol_name : string;
  package_path : string;
  module_path : string;
  version : string;
  package_name : string;
  synopsis : string;
  license_types : list string;
  commit_time : Z;
  imported_by_count : Z;
  goos : string;
  goarch : string;
  symbol_type : string;
  symbol_synopsis : string;
  tsv_name_tokens : tsvector;
  tsv_path_tokens : tsvector
}.

(** *** Expressions; [None] is NULL *)

Fixpoint eval_text (e : text_expr) (arg1 : string) : option string :=
  match e with
  | Arg1 => Some arg1
  | Replace e from to =>
      option_map (fun s => Pg.replace s from to) (eval_text e arg1)
  | SplitPart e delim n =>
      option_map (fun s => Pg.split_part s delim n) (eval_text e arg1)
  | SubstringFrom e r =>
      match eval_text e arg1 with
      | Some s => Pg.substring_from s r
      | None => None
      end
  end.

Definition eval_tsquery (q : tsquery_expr) (arg1 : string) : option tsquery :=
  match q with
  | ToTSQuery config e => option_map (to_tsquery config) (eval_text e arg1)
  end.

Definition tsv_of (c : tsv_column) (r : Row) : tsvector :=
  match c with
  | NameTokens => tsv_name_tokens r
  | PathTokens => tsv_path_tokens r
  end.

Definition text_of (c : text_column) (r : Row) : string :=
  match c with
  | PackageName => package_name r
  | PackagePath => package_path r
  end.

(** AND and OR of SQL, with NULL. *)
Definition and3 (a b : option bool) : option bool :=
  match a, b with
  | Some false, _ | _, Some false => Some false
  | Some true, Some true => Some true
  | _, _ => None
  end.

Definition or3 (a b : option bool) : option bool :=
  match a, b with
  | Some true, _ | _, Some true => Some true
  | Some false, Some false => Some false
  | _, _ => None
  end.

Fixpoint eval_filter (f : filter) (arg1 : string) (r : Row) : option bool :=
  match f with
  | Matches c q => option_map (ts_match (tsv_of c r)) (eval_tsquery q arg1)
  | Equals c e => option_map (String.eqb (text_of c r)) (eval_text e arg1)
  | And a b => and3 (eval_filter a arg1 r) (eval_filter b arg1 r)
  | Or a b => or3 (eval_filter a arg1 r) (eval_filter b arg1 r)
  | Group a => eval_filter a arg1 r
  end.

Definition lift2 (f : R -> R -> R) (a b : option R) : option R :=
  match a, b with
  | Some x, Some y => Some (f x y)
  | _, _ => None
  end.

Fixpoint decimals (ws : list string) : option (list R) :=
  match ws with
  | [] => Some []
  | w :: ws' =>
      match Pg.decimal_value w, decimals ws' with
      | Some x, Some xs => Some (Q2R x :: xs)
      | _, _ => None
      end
  end.

(** Numbers are real numbers: [ln] and [exp] are the functions of
    analysis. *)
Fixpoint eval_num (e : num_expr) (arg1 : string) (r : Row) : option R :=
  match e with
  | Num literal => option_map Q2R (Pg.decimal_value literal)
  | ImportedByCount => Some (IZR (imported_by_count r))
  | Plus a b => lift2 Rplus (eval_num a arg1 r) (eval_num b arg1 r)
  | Times a b => lift2 Rmult (eval_num a arg1 r) (eval_num b arg1 r)
  | Exp a => option_map exp (eval_num a arg1 r)
  | Ln a => option_map ln (eval_num a arg1 r)
  | TsRank weights c q =>
      match decimals weights, eval_tsquery q arg1 with
      | Some ws, Some t => Some (ts_rank ws (tsv_of c r) t)
      | _, _ => None
      end
  | NGroup a => eval_num a arg1 r
  end.

(** *** The inner query: the rows of [results] *)

(** WHERE keeps the rows on which the filter is true, not those on which
    it is false or NULL. *)
Definition selected (st : statement) (arg1 : string) (r : Row) : bool :=
  match eval_filter (where_ st) arg1 r with
  | Some true => true
  | _ => false
  end.

Definition results (st : statement) (arg1 : string) (corpus : list Row)
    : list (Row * option R) :=
  map (fun r => (r, eval_num (score st) arg1 r))
      (List.filter (selected st arg1) corpus).

(** *** The outer query: floor, order, limit *)

(** A row of [results] whose score is a number. *)
Record Scored := { row : Row; score_value : R }.

Definition floor_value (st : statement) : option R :=
  option_map Q2R (Pg.decimal_value (floor st)).

Definition above (limit : option R) (x : R) : bool :=
  match limit with
  | Some f => if Rlt_dec f x then true else false
  | None => false
  end.

(** [WHERE r.score > floor]. *)
Fixpoint over_floor (f : option R) (rs : list (Row * option R)) : list Scored :=
  match rs with
  | [] => []
  | (r, Some x) :: rs' =>
      if above f x then {| row := r; score_value := x |} :: over_floor f rs'
      else over_floor f rs'
  | (_, None) :: rs' => over_floor f rs'
  end.

Definition kept (st : statement) (arg1 : string) (corpus : list Row) : list Scored :=
  over_floor (floor_value st) (results st arg1 corpus).

(** ORDER BY: the columns are compared one after the other; text is
    compared byte by byte. *)
Definition column_compare (c : order_column) (a b : Scored) : comparison :=
  match c with
  | Score => Rcompare (score_value a) (score_value b)
  | CommitTime => Z.compare (commit_time (row a)) (commit_time (row b))
  | SymbolName => String.compare (symbol_name (row a)) (symbol_name (row b))
  | PackagePathKey => String.compare (package_path (row a)) (package_path (row b))
  end.

Definition key_compare (k : order_column * direction) (a b : Scored) : comparison :=
  match snd k with
  | Asc => column_compare (fst k) a b
  | Desc => column_compare (fst k) b a
  end.

Fixpoint order_compare (ks : list (order_column * direction)) (a b : Scored)
    : comparison :=
  match ks with
  | [] => Eq
  | k :: ks' =>
      match key_compare k a b with
      | Eq => order_compare ks' a b
      | c => c
      end
  end.

(** [a] may stand before [b]. *)
Definition precedes (ks : list (order_column * direction)) (a b : Scored) : Prop :=
  order_compare ks a b <> Gt.

Definition precedesb (ks : list (order_column * direction)) (a b : Scored) : bool :=
  match order_compare ks a b with
  | Gt => false
  | _ => true
  end.

Definition ordered (ks : list (order_column * direction)) (l : list Scored) : Prop :=
  StronglySorted (precedes ks) l.

(** What the store answers: rows, or it refuses the statement (LIMIT must
    not be negative). *)
Inductive outcome :=
| Rows (l : list Scored)
| Refused.

(** ORDER BY leaves the order of rows that agree on every key open, so the
    answers of a statement are a relation: any ordering of the kept rows,
    cut after the first [limit]. *)
Definition answers (st : statement) (arg1 : string) (limit : Z)
    (corpus : list Row) (o : outcome) : Prop :=
  if (limit <? 0)%Z then o = Refused
  else exists l,
      Permutation l (kept st arg1 corpus) /\
      ordered (order_by st) l /\
      o = Rows (firstn (Z.to_nat limit) l).

(** One such answer: the kept rows sorted by insertion, rows that agree on
    every key staying in the order of the corpus. *)
Fixpoint insert_row (ks : list (order_column * direction)) (a : Scored)
    (l : list Scored) : list Scored :=
  match l with
  | [] => [a]
  | b :: l' => if precedesb ks a b then a :: l else b :: insert_row ks a l'
  end.

Definition sort_rows (ks : list (order_column * direction)) (l : list Scored)
    : list Scored :=
  fold_right (insert_row ks) [] l.

Definition run (st : statement) (arg1 : string) (limit : Z) (corpus : list Row)
    : outcome :=
  if (limit <? 0)%Z then Refused
  else Rows (firstn (Z.to_nat limit) (sort_rows (order_by st) (kept st arg1 corpus))).

(** The columns the outer SELECT returns: the row without its score. *)
Definition returned (o : outcome) : option (list Row) :=
  match o with
  | Rows l => Some (map row l)
  | Refused => None
  end.

(** The four values the ordering looks at. *)
Definition sort_key (a : Scored) : R * Z * string * string :=
  (score_value a, commit_time (row a), symbol_name (row a), package_path (row a)).



End Statements.

Arguments Row engine : clear implicits.
Arguments Scored engine : clear implicits.
Arguments outcome engine : clear implicits.

(** *** The words of the specification *)

(** The normalisation: every underscore becomes a hyphen. *)
Definition normalize (s : string) : string := Pg.replace s "_" "-".

(** The same, character by character. *)
Fixpoint subst_char (a : ascii) (new : string) (s : string) : string :=
  match s with
  | EmptyString => EmptyString
  | String c s' =>
      if Ascii.eqb c a then new ++ subst_char a new s'
      else String c (subst_char a new s')
  end.




Definition nonempty (s : string) : bool := negb (s =? "")%string.

(** The weight of a popularity counter. *)
Definition popularity_weight (n : Z) : R := ln (exp 1 + IZR n).


(** A row with the weight of its popularity as score. *)
Definition weighted {engine : TextSearch} (r : Row engine) : Scored engine :=
  {| row := r; score_value := popularity_weight (imported_by_count r) |}.

(** The order of [baseOrder] on the keys. *)
Definition key_precedes (k1 k2 : R * Z * string * string) : Prop :=
  let '(s1, t1, n1, p1) := k1 in
  let '(s2, t2, n2, p2) := k2 in
  match Rcompare s2 s1 with
  | Eq =>
      match Z.compare t2 t1 with
      | Eq =>
          match String.compare n1 n2 with
          | Eq => match String.compare p1 p2 with Eq => Eq | c => c end
          | c => c
          end
      | c => c
      end
  | c => c
  end <> Gt.

End Sem.

(** ** A plain engine, for examples

    Vectors and queries are lists of words; a query text is cut at the OR
    sign; a vector matches a query when they share a word, and its rank is
    then the first weight. *)

Module Plain.

Local Open Scope R_scope.

Definition share (v q : list string) : bool :=
  existsb (fun w => existsb (String.eqb w) v) q.

Definition rank (ws : list R) (v q : list string) : R :=
  if share v q then Rmax 0 (nth 0 ws 0) else 0.

#[export] Instance engine : Sem.TextSearch.
Proof.
  refine {| Sem.tsvector := list string;
            Sem.tsquery := list string;
            Sem.to_tsquery := fun _ text => Pg.fields " | " text;
            Sem.ts_match := share;
            Sem.ts_rank := rank |}.
  intros ws v q _. unfold rank.
  destruct (share v q); [apply Rmax_l | apply Rle_refl].
Defined.

(** A row of package [pkg] and symbol [sym]. *)
Definition entry (pkg path sym os : string) (popularity : Z)
    (names paths : list string) : Sem.Row engine :=
  {| Sem.symbol_name := sym;
     Sem.package_path := path;
     Sem.module_path := path;
     Sem.version := "v1.0.0";
     Sem.package_name := pkg;
     Sem.synopsis := "";
     Sem.license_types := [];
     Sem.commit_time := 0;
     Sem.imported_by_count := popularity;
     Sem.goos := os;
     Sem.goarch := "amd64";
     Sem.symbol_type := "Function";
     Sem.symbol_synopsis := "";
     Sem.tsv_name_tokens := names;
     Sem.tsv_path_tokens := paths |}.

(** Rows of the examples. *)
Definition json_marshal : Sem.Row engine :=
  entry "json" "encoding/json" "Marshal" "linux" 120 ["Marshal"] ["encoding"; "json"].

Definition json_marshal_windows : Sem.Row engine :=
  entry "json" "encoding/json" "Marshal" "windows" 120 ["Marshal"] ["encoding"; "json"].

Definition http_server : Sem.Row engine :=
  entry "http" "net/http" "Server" "linux" 0 ["Server"] ["net"; "http"].

Definition my_pkg_foo : Sem.Row engine :=
  entry "my_pkg" "example.com/my_pkg" "Foo" "linux" 3 ["Foo"] ["example.com"; "my-pkg"].

(** The two build variants of one symbol. *)
Definition build_variants : list (Sem.Row engine) :=
  [json_marshal; json_marshal_windows].


End Plain.


(** ** The details pages of the frontend

    The functions of [details.go] that work on texts and lists.  What
    they get from the database is an argument here: the result of the
    call, rows or an error. *)

Module Frontend.

Local Open Scope nat_scope.

(** *** Functions of package strings *)

Fixpoint drop (n : nat) (s : string) : string :=
  match n, s with
  | O, _ => s
  | S k, String _ s' => drop k s'
  | S _, EmptyString => EmptyString
  end.

Definition take (n : nat) (s : string) : string := String.substring 0 n s.

Definition TrimPrefix (s pre : string) : string :=
  if Go.HasPrefix s pre then drop (String.length pre) s else s.

(** [IndexByte s c]: where [c] stands first in [s], -1 when it does
    not. *)
Fixpoint IndexByte_from (i : Z) (s : string) (c : ascii) : Z :=
  match s with
  | EmptyString => (-1)%Z
  | String d s' => if Ascii.eqb d c then i else IndexByte_from (i + 1)%Z s' c
  end.

Definition IndexByte (s : string) (c : ascii) : Z := IndexByte_from 0 s c.

Fixpoint Contains (s sub : string) : bool :=
  String.prefix sub s ||
  match s with
  | EmptyString => false
  | String _ s' => Contains s' sub
  end.

(** The decimal text of an integer, as the verb [%d] writes it. *)
Definition itoa (z : Z) : string := NilZero.string_of_int (Z.to_int z).

(** *** Errors and results *)

Inductive result (E A : Type) :=
| Ok (a : A)
| Err (e : E).

Arguments Ok {E A} a.
Arguments Err {E A} e.

(** [inStdLib] reports whether the package is part of the Go standard
    library. *)
Definition inStdLib (path : string) : bool :=
  let i := IndexByte path "/" in
  if negb (i =? -1)%Z
  then negb (Contains (take (Z.to_nat i) path) ".")
  else negb (Contains path ".").

(** [packageName]: [filepath.Base] and [module.SplitPathVersion] are
    declared outside these files and are arguments here.  [None] is the
    panic of the slice expression [path[len(path)-3:]] on a path of
    fewer than three characters. *)
Definition packageName (Base : string -> string)
    (SplitPathVersion : string -> string * (string * bool))
    (name path : string) : option string :=
  if negb (name =? "main")%string then Some name
  else if String.length path <? 3 then None
  else if (drop (String.length path - 3) path =? "/v1")%string
  then Some (Base (take (String.length path - 3) path))
  else Some (Base (fst (SplitPathVersion path))).

(** [elapsedTime], from the whole hours that have passed,
    [int(time.Since(date).Hours())], and the date as [date.Format] writes
    it.  The division of Go rounds towards zero. *)
Definition elapsedTime (elapsedHours : Z) (formatted : string) : string :=
  if (elapsedHours =? 1)%Z then "1 hour ago"
  else if (elapsedHours <? 6)%Z then itoa elapsedHours ++ " hours ago"
  else
    let elapsedDays := Z.quot elapsedHours 24 in
    if (elapsedDays <? 1)%Z then "today"
    else if (elapsedDays =? 1)%Z then "1 day ago"
    else if (elapsedDays <? 6)%Z then itoa elapsedDays ++ " days ago"
    else formatted.

(** *** Imports and importers *)

Record ImportsDetails := {
  Imports_ModulePath : string;
  ExternalImports : list string;
  InternalImports : list string;
  StdLib : list string
}.

Record ImportedByDetails := {
  ImportedBy_ModulePath : string;
  ExternalImportedBy : list string;
  InternalImportedBy : list string
}.

(** The errors the two functions wrap: the call, its operands and the
    error of the database. *)
Inductive fetch_error (E : Type) :=
| GetImportsFailed (path version : string) (cause : E)
| GetImportedByFailed (path : string) (cause : E).

Arguments GetImportsFailed {E} path version cause.
Arguments GetImportedByFailed {E} path cause.

(** One turn of the loop of [fetchImportsDetails]: the lists are
    (external, module, std). *)
Definition sort_import (modulePath : string)
    (acc : list string * list string * list string) (p : string)
    : list string * list string * list string :=
  let '(externalImports, moduleImports, std) := acc in
  if inStdLib p then (externalImports, moduleImports, std ++ [p])%list
  else if Go.HasPrefix (p ++ "/") (modulePath ++ "/")
  then (externalImports, moduleImports ++ [p], std)%list
  else (externalImports ++ [p], moduleImports, std)%list.

(** [fetchImportsDetails], from the result of [db.GetImports] and the
    path, version and module path of the package. *)
Definition fetchImportsDetails {E : Type} (dbImports : result E (list string))
    (path version modulePath : string) : result (fetch_error E) ImportsDetails :=
  match dbImports with
  | Err e => Err (GetImportsFailed path version e)
  | Ok imports =>
      let '(externalImports, moduleImports, std) :=
        fold_left (sort_import modulePath) imports ([], [], []) in
      Ok {| Imports_ModulePath := modulePath;
            ExternalImports := externalImports;
            InternalImports := moduleImports;
            StdLib := std |}
  end.

(** The three kinds of import. *)
Definition is_std (p : string) : bool := inStdLib p.

Definition is_internal (modulePath p : string) : bool :=
  negb (inStdLib p) && Go.HasPrefix (p ++ "/") (modulePath ++ "/").

Definition is_external (modulePath p : string) : bool :=
  negb (inStdLib p) && negb (Go.HasPrefix (p ++ "/") (modulePath ++ "/")).

Definition sort_importer (modulePath : string)
    (acc : list string * list string) (path : string)
    : list string * list string :=
  let '(externalImportedBy, moduleImportedBy) := acc in
  if Go.HasPrefix path modulePath
  then (externalImportedBy, moduleImportedBy ++ [path])%list
  else (externalImportedBy ++ [path], moduleImportedBy)%list.

(** [fetchImportedByDetails], from the result of [db.GetImportedBy]. *)
Definition fetchImportedByDetails {E : Type} (importedByPaths : result E (list string))
    (path modulePath : string) : result (fetch_error E) ImportedByDetails :=
  match importedByPaths with
  | Err e => Err (GetImportedByFailed path e)
  | Ok paths =>
      let '(externalImportedBy, moduleImportedBy) :=
        fold_left (sort_importer modulePath) paths ([], []) in
      Ok {| ImportedBy_ModulePath := modulePath;
            ExternalImportedBy := externalImportedBy;
            InternalImportedBy := moduleImportedBy |}
  end.

(** *** Versions

    [fetchVersionsDetails] builds its groups through pointers: a group
    is made, a pointer to it is put into the list of the group above, and
    the group is filled afterwards through the pointer.  Here the groups
    live in three stores and a pointer is the place of a group in its
    store. *)

(** What the function reads of a version of the database: the series
    path, [v.SeriesPath()], the module path, the version, and the commit
    time as [elapsedTime] writes it. *)
Record VersionInfo := {
  SeriesPath : string;
  V_ModulePath : string;
  V_Version : string;
  V_Elapsed : string
}.

(** What it reads of the package. *)
Record PackageInfo := {
  P_Path : string;
  P_V1Path : string;
  P_SeriesPath : string
}.

(** The fields of [Package] that the function sets. *)
Record Entry := {
  E_Version : string;
  E_Path : string;
  E_CommitTime : string
}.

Record MinorVersionGroup := {
  Minor : string;
  Minor_Latest : Entry;
  PatchVersions : list Entry
}.

Record MajorVersionGroup := {
  Major : string;
  Major_Latest : Entry;
  MinorVersions : list nat
}.

Record SeriesVersionGroup := {
  Series : string;
  Series_Latest : Entry;
  MajorVersions : list nat
}.

Record groups := {
  series_store : list SeriesVersionGroup;
  major_store : list MajorVersionGroup;
  minor_store : list MinorVersionGroup;
  svg : list nat;
  curSeries : option nat;
  curMajor : option nat;
  curMinor : option nat
}.

Definition no_groups : groups :=
  {| series_store := []; major_store := []; minor_store := [];
     svg := []; curSeries := None; curMajor := None; curMinor := None |}.

Definition zero_entry : Entry :=
  {| E_Version := ""; E_Path := ""; E_CommitTime := "" |}.

Definition zero_series : SeriesVersionGroup :=
  {| Series := ""; Series_Latest := zero_entry; MajorVersions := [] |}.

Definition zero_major : MajorVersionGroup :=
  {| Major := ""; Major_Latest := zero_entry; MinorVersions := [] |}.

Definition zero_minor : MinorVersionGroup :=
  {| Minor := ""; Minor_Latest := zero_entry; PatchVersions := [] |}.

(** The group at place [n] changed by [f]. *)
Fixpoint change_at {A : Type} (n : nat) (f : A -> A) (l : list A) : list A :=
  match l, n with
  | [], _ => []
  | a :: l', O => f a :: l'
  | a :: l', S k => a :: change_at k f l'
  end.

(** The versions of another series are passed over, unless the series
    path begins the v1 path of the package. *)
Definition passed_over (pkg : PackageInfo) (v : VersionInfo) : bool :=
  negb (SeriesPath v =? P_SeriesPath pkg)%string &&
  negb (Go.HasPrefix (P_V1Path pkg) (SeriesPath v)).

(** The versions the loop does not pass over. *)
Definition taken (pkg : PackageInfo) (v : VersionInfo) : bool :=
  negb (passed_over pkg v).

Definition entry_of (pkg : PackageInfo) (v : VersionInfo) : Entry :=
  let suffix := TrimPrefix (TrimPrefix (P_V1Path pkg) (SeriesPath v)) "/" in
  let pkgPath :=
    if inStdLib (P_Path pkg) then P_Path pkg
    else if (suffix =? "")%string then V_ModulePath v
    else V_ModulePath v ++ "/" ++ suffix in
  {| E_Version := V_Version v; E_Path := pkgPath; E_CommitTime := V_Elapsed v |}.

(** The four steps of one turn of the loop.  [None] is the panic of Go
    on a nil pointer. *)

(** A new series group, unless the current one has this series path;
    with a new series the major and the minor group start anew. *)
Definition start_series (series : string) (latest : Entry) (g : groups) : groups :=
  let fresh :=
    match curSeries g with
    | None => true
    | Some s => negb (Series (nth s (series_store g) zero_series) =? series)%string
    end in
  if fresh then
    {| series_store :=
         (series_store g ++
          [{| Series := series; Series_Latest := latest; MajorVersions := [] |}])%list;
       major_store := major_store g;
       minor_store := minor_store g;
       svg := (svg g ++ [List.length (series_store g)])%list;
       curSeries := Some (List.length (series_store g));
       curMajor := None;
       curMinor := None |}
  else g.

(** A new major group in the current series, unless the current major
    group has this major. *)
Definition start_major (major : string) (latest : Entry) (g : groups) : option groups :=
  let fresh :=
    match curMajor g with
    | None => true
    | Some m => negb (Major (nth m (major_store g) zero_major) =? major)%string
    end in
  if fresh then
    match curSeries g with
    | None => None
    | Some cs =>
        Some
          {| series_store :=
               change_at cs
                 (fun s => {| Series := Series s; Series_Latest := Series_Latest s;
                              MajorVersions :=
                                (MajorVersions s ++ [List.length (major_store g)])%list |})
                 (series_store g);
             major_store :=
               (major_store g ++
                [{| Major := major; Major_Latest := latest; MinorVersions := [] |}])%list;
             minor_store := minor_store g;
             svg := svg g;
             curSeries := curSeries g;
             curMajor := Some (List.length (major_store g));
             curMinor := curMinor g |}
    end
  else Some g.

(** A new minor group in the current major group, unless the current
    minor group has this major and minor. *)
Definition start_minor (majMin : string) (latest : Entry) (g : groups) : option groups :=
  let fresh :=
    match curMinor g with
    | None => true
    | Some n => negb (Minor (nth n (minor_store g) zero_minor) =? majMin)%string
    end in
  if fresh then
    match curMajor g with
    | None => None
    | Some cm =>
        Some
          {| series_store := series_store g;
             major_store :=
               change_at cm
                 (fun m => {| Major := Major m; Major_Latest := Major_Latest m;
                              MinorVersions :=
                                (MinorVersions m ++ [List.length (minor_store g)])%list |})
                 (major_store g);
             minor_store :=
               (minor_store g ++
                [{| Minor := majMin; Minor_Latest := latest; PatchVersions := [] |}])%list;
             svg := svg g;
             curSeries := curSeries g;
             curMajor := curMajor g;
             curMinor := Some (List.length (minor_store g)) |}
    end
  else Some g.

(** The version goes to the end of the current minor group. *)
Definition add_patch (latest : Entry) (g : groups) : option groups :=
  match curMinor g with
  | None => None
  | Some cn =>
      Some
        {| series_store := series_store g;
           major_store := major_store g;
           minor_store :=
             change_at cn
               (fun n => {| Minor := Minor n; Minor_Latest := Minor_Latest n;
                            PatchVersions := (PatchVersions n ++ [latest])%list |})
               (minor_store g);
           svg := svg g;
           curSeries := curSeries g;
           curMajor := curMajor g;
           curMinor := curMinor g |}
  end.

Definition and_then {A B : Type} (a : option A) (f : A -> option B) : option B :=
  match a with
  | Some x => f x
  | None => None
  end.

Section Versions.

(** [semver.Major] and [semver.MajorMinor] are declared outside these
    files. *)
Variable semver_Major : string -> string.
Variable semver_MajorMinor : string -> string.

(** One turn of the loop. *)
Definition group_version (pkg : PackageInfo) (g : groups) (v : VersionInfo)
    : option groups :=
  if passed_over pkg v then Some g
  else
    let latest := entry_of pkg v in
    and_then (start_major (semver_Major (V_Version v)) latest
                (start_series (SeriesPath v) latest g))
      (fun g2 =>
         and_then (start_minor (semver_MajorMinor (V_Version v)) latest g2)
           (add_patch latest)).

Definition group_versions (pkg : PackageInfo) (versions : list VersionInfo)
    : option groups :=
  fold_left (fun acc v => and_then acc (fun g => group_version pkg g v))
    versions (Some no_groups).

Inductive versions_error (E : Type) :=
| GetTaggedVersionsFailed (path : string) (cause : E)
| GetPseudoVersionsFailed (path : string) (cause : E).

(** [fetchVersionsDetails], from the results of the two calls of the
    database; the second is made when the first brings no version. *)
Definition fetchVersionsDetails {E : Type}
    (tagged pseudo : result E (list VersionInfo)) (pkg : PackageInfo)
    : option (result (versions_error E) groups) :=
  match tagged with
  | Err e => Some (Err (GetTaggedVersionsFailed E (P_Path pkg) e))
  | Ok [] =>
      match pseudo with
      | Err e => Some (Err (GetPseudoVersionsFailed E (P_Path pkg) e))
      | Ok versions => option_map Ok (group_versions pkg versions)
      end
  | Ok versions => option_map Ok (group_versions pkg versions)
  end.

End Versions.

(** A current pointer, when it is set, points to the group that was made
    last. *)
Definition points_to_last (cur : option nat) (size : nat) : Prop :=
  match cur with
  | None => True
  | Some i => S i = size
  end.

(** The stores are well grouped around the entries [L]: every group is
    listed once in the group above it, in the order in which the groups
    were made, and the minor groups hold [L] in order. *)
Definition well_grouped (g : groups) (L : list Entry) : Prop :=
  svg g = seq 0 (List.length (series_store g)) /\
  flat_map MajorVersions (series_store g) = seq 0 (List.length (major_store g)) /\
  flat_map MinorVersions (major_store g) = seq 0 (List.length (minor_store g)) /\
  flat_map PatchVersions (minor_store g) = L /\
  points_to_last (curSeries g) (List.length (series_store g)) /\
  points_to_last (curMajor g) (List.length (major_store g)) /\
  points_to_last (curMinor g) (List.length (minor_store g)).

(** The entries of the groups, read through the pointers from the series
    down, in the order of the lists. *)
Definition entries_of_minor (g : groups) (n : nat) : list Entry :=
  PatchVersions (nth n (minor_store g) zero_minor).

Definition entries_of_major (g : groups) (m : nat) : list Entry :=
  flat_map (entries_of_minor g) (MinorVersions (nth m (major_store g) zero_major)).

Definition entries_of_series (g : groups) (s : nat) : list Entry :=
  flat_map (entries_of_major g) (MajorVersions (nth s (series_store g) zero_series)).

Definition entries (g : groups) : list Entry :=
  flat_map (entries_of_series g) (svg g).

End Frontend.

(** ** The texts of the Go package are the statements of the SQL layer *)

Example Sprintf_verbs :
  Go.Sprintf "%s AND %s" ["a"; "b"] = "a AND b" /\
  Go.Sprintf "(x=%s OR y=%[1]s)" ["a"] = "(x=a OR y=a)" /\
  Go.Sprintf "%s, %s" ["a"] = "a, %!s(MISSING)" /\
  Go.Sprintf "%s" ["a"; "b"] = "a%!(EXTRA string=b)".
Proof. repeat split; reflexivity. Qed.

Example ReplaceAll_parameter :
  Go.ReplaceAll "substring($1 from x)" "$1" "f($1)" = "substring(f($1) from x)" /\
  Go.ReplaceAll "aaa" "aa" "b" = "ba" /\
  Go.ReplaceAll "ab" "" "-" = "-a-b-".
Proof. repeat split; reflexivity. Qed.

Example indent_tabs :
  Go.indent ")" 3 = nl ++ tabs 4 ++ ")" /\ Go.indent ")" (-1) = nl ++ ")".
Proof. split; reflexivity. Qed.

Lemma processArg_parameter :
  Go.processArg "$1" = "replace($1, '_', '-')".
Proof. reflexivity. Qed.

Lemma processArg_other_parameter :
  Go.processArg "$2" = "replace($2, '_', '-')".
Proof. reflexivity. Qed.

Lemma processArg_splitOR :
  Go.processArg Go.splitOR = "replace(replace($1, '_', '-'), ' ', ' | ')".
Proof. reflexivity. Qed.

Lemma processArg_lex :
  Sql.lex (Go.processArg "$1") = Sql.text_tokens (Sql.normalized Sql.Arg1).
Proof. reflexivity. Qed.

Lemma splitFirstDot_lex :
  Sql.lex Go.splitFirstDot = Sql.text_tokens Sql.splitFirstDot.
Proof. reflexivity. Qed.

Lemma filter_lex (s : Sql.strategy) :
  Sql.lex
    match s with
    | Sql.BareSymbol => Go.filterSymbol
    | Sql.QualifiedReference => Go.filterPackageDotSymbol
    | Sql.MultiWord => Go.filterMultiWord
    end = Sql.filter_tokens (Sql.filter_of s).
Proof. destruct s; vm_compute; reflexivity. Qed.

Lemma popularityMultiplier_lex :
  Sql.lex Go.popularityMultiplier = Sql.num_tokens Sql.popularityMultiplier.
Proof. reflexivity. Qed.

Lemma scoreMultiWord_lex :
  Sql.lex Go.scoreMultiWord = Sql.num_tokens Sql.scoreMultiWord.
Proof. vm_compute; reflexivity. Qed.

(** Each of the three texts lexes to the tokens of its statement. *)
Lemma raw_is_query (s : Sql.strategy) :
  Sql.lex (Sql.raw s) = Sql.statement_tokens (Sql.query s).
Proof. destruct s; vm_compute; reflexivity. Qed.

(** [constructQuery] takes the multi-word score for the multi-word filter
    only. *)
Lemma constructQuery_score (s : Sql.strategy) :
  Sql.raw s =
  Go.Sprintf Go.symbolSearchBaseQuery
    [match s with
     | Sql.MultiWord => Go.formatScore Go.scoreMultiWord
     | _ => Go.popularityMultiplier
     end;
     match s with
     | Sql.BareSymbol => Go.filterSymbol
     | Sql.QualifiedReference => Go.filterPackageDotSymbol
     | Sql.MultiWord => Go.filterMultiWord
     end].
Proof. destruct s; vm_compute; reflexivity. Qed.

(** ** Facts about the string functions of the store *)

Section StringFacts.

Lemma prefix_single (a c : ascii) (s : string) :
  String.prefix (String a EmptyString) (String c s) = Ascii.eqb c a.
Proof.
  simpl. destruct (ascii_dec a c) as [->|Hne].
  - rewrite Ascii.eqb_refl. now destruct s.
  - symmetry. apply Ascii.eqb_neq. congruence.
Qed.

Lemma replace_single (a : ascii) (new s : string) :
  Pg.replace s (String a EmptyString) new = Sem.subst_char a new s.
Proof.
  unfold Pg.replace. cbn [String.eqb].
  induction s as [|c s IH].
  - reflexivity.
  - cbn [replace_from Sem.subst_char String.length Nat.sub].
    rewrite prefix_single. destruct (Ascii.eqb c a); now rewrite IH.
Qed.





Lemma append_assoc (s t u : string) : (s ++ t) ++ u = s ++ (t ++ u).
Proof. induction s as [|c s IH]; cbn; [reflexivity | now rewrite IH]. Qed.


Lemma normalize_subst (s : string) :
  Sem.normalize s = Sem.subst_char "_" "-" s.
Proof. apply replace_single. Qed.


Lemma normalize_idempotent (s : string) :
  Sem.normalize (Sem.normalize s) = Sem.normalize s.
Proof.
  rewrite !normalize_subst.
  induction s as [|c s IH]; [reflexivity|].
  cbn [Sem.subst_char]. destruct (Ascii.eqb c "_") eqn:E.
  - cbn. now rewrite IH.
  - cbn [Sem.subst_char]. now rewrite E, IH.
Qed.








(** The pattern on some inputs.  The dot behind [[^.]*] stands for any
    character in the pattern the store sees, so an input without a dot, or
    with nothing behind its dot, still gives a match. *)
Example afterDot_on_inputs :
  Pg.substring_from "pkg.Type.Method" Sql.afterDot = Some "Type.Method" /\
  Pg.substring_from ".Method" Sql.afterDot = Some "Method" /\
  Pg.substring_from "pkg." Sql.afterDot = Some "." /\
  Pg.substring_from "pkg" Sql.afterDot = Some "g" /\
  Pg.substring_from "." Sql.afterDot = None.
Proof. repeat split; reflexivity. Qed.


(** Where the only blanks are spaces, the words are the pieces between
    the spaces that are not empty. *)
Lemma append_empty (s : string) : s ++ "" = s.
Proof. induction s as [|c s IH]; cbn; [reflexivity | now rewrite IH]. Qed.


Lemma nonempty_append_char (s t : string) (c : ascii) :
  Sem.nonempty (s ++ String c t) = true.
Proof. destruct s; reflexivity. Qed.



End StringFacts.

(** ** Filters and scores of the three statements *)

Section FilterFacts.
Context {engine : Sem.TextSearch}.
Import Sem Sql.

Local Open Scope R_scope.



Lemma eval_normalized (q : string) :
  eval_text (normalized Arg1) q = Some (normalize q).
Proof. reflexivity. Qed.




Lemma bare_filter (q : string) (r : Row engine) :
  eval_filter filterSymbol q r =
  Some (ts_match (tsv_name_tokens r) (to_tsquery "symbols" (normalize q))).
Proof. reflexivity. Qed.




(** *** Scores *)

Lemma Q2R_one : Q2R 1 = 1.
Proof. unfold Q2R. cbn. lra. Qed.


Lemma floor_tenth (s : strategy) : floor_value (query s) = Some 0.1.
Proof.
  unfold floor_value, query. cbn [floor].
  change (Pg.decimal_value "0.1") with (Some (1 # 10)%Q).
  cbn [option_map]. unfold Q2R. cbn [Qnum Qden]. reflexivity.
Qed.

Lemma popularity_score (q : string) (r : Row engine) :
  eval_num popularityMultiplier q r = Some (popularity_weight (imported_by_count r)).
Proof.
  unfold popularityMultiplier, popularity_weight. cbn [eval_num].
  change (Pg.decimal_value "1") with (Some 1%Q).
  cbn [option_map lift2]. now rewrite Q2R_one.
Qed.


End FilterFacts.

(** ** Facts about comparisons *)

Section Orderings.

Context {A : Type}.

Lemma ord_eq_right (cmp : A -> A -> comparison) (O : Ordering cmp) a b c :
  cmp b c = Eq -> cmp a b = cmp a c.
Proof.
  intros H.
  assert (H' : cmp c b = Eq) by (rewrite (ord_sym _ O), H; reflexivity).
  rewrite (ord_sym _ O b a), (ord_sym _ O c a).
  f_equal. symmetry. now apply (ord_eq_left _ O).
Qed.

Lemma ord_le_trans (cmp : A -> A -> comparison) (O : Ordering cmp) a b c :
  cmp a b <> Gt -> cmp b c <> Gt -> cmp a c <> Gt.
Proof.
  intros Hab Hbc.
  destruct (cmp a b) eqn:Eab; [| |congruence].
  - now rewrite (ord_eq_left _ O a b c Eab).
  - destruct (cmp b c) eqn:Ebc; [| |congruence].
    + now rewrite <- (ord_eq_right _ O a b c Ebc), Eab.
    + now rewrite (ord_lt_trans _ O a b c Eab Ebc).
Qed.

Lemma ord_total (cmp : A -> A -> comparison) (O : Ordering cmp) a b :
  cmp a b = Gt -> cmp b a <> Gt.
Proof. intros H. rewrite (ord_sym _ O), H. discriminate. Qed.

Lemma ord_refl (cmp : A -> A -> comparison) (O : Ordering cmp) a : cmp a a = Eq.
Proof.
  pose proof (ord_sym _ O a a) as H. destruct (cmp a a); auto; discriminate.
Qed.

Lemma Ordering_lexi (c1 c2 : A -> A -> comparison) :
  Ordering c1 -> Ordering c2 -> Ordering (lexi c1 c2).
Proof.
  intros O1 O2. split; unfold lexi.
  - intros a b. rewrite (ord_sym _ O1 a b), (ord_sym _ O2 a b).
    now destruct (c1 a b).
  - intros a b c Hab Hbc.
    destruct (c1 a b) eqn:Eab; [| |discriminate].
    + rewrite (ord_eq_left _ O1 a b c Eab).
      destruct (c1 b c); [|reflexivity|discriminate].
      now apply (ord_lt_trans _ O2 a b c).
    + destruct (c1 b c) eqn:Ebc; [| |discriminate].
      * now rewrite <- (ord_eq_right _ O1 a b c Ebc), Eab.
      * now rewrite (ord_lt_trans _ O1 a b c Eab Ebc).
  - intros a b c Hab.
    destruct (c1 a b) eqn:Eab; try discriminate.
    rewrite (ord_eq_left _ O1 a b c Eab), (ord_eq_left _ O2 a b c Hab).
    reflexivity.
Qed.

Lemma Ordering_flip (cmp : A -> A -> comparison) :
  Ordering cmp -> Ordering (fun a b => cmp b a).
Proof.
  intros O. split.
  - intros a b. apply (ord_sym _ O).
  - intros a b c Hab Hbc. now apply (ord_lt_trans _ O c b a).
  - intros a b c Hab.
    assert (H : cmp a b = Eq) by (rewrite (ord_sym _ O), Hab; reflexivity).
    symmetry. now apply (ord_eq_right _ O).
Qed.

Lemma Ordering_Eq : Ordering (fun _ _ : A => Eq).
Proof. split; auto. Qed.

Lemma Ordering_on {B : Type} (f : A -> B) (cmp : B -> B -> comparison) :
  Ordering cmp -> Ordering (fun a b => cmp (f a) (f b)).
Proof.
  intros O. split; intros.
  - apply (ord_sym _ O).
  - now apply (ord_lt_trans _ O _ (f b)).
  - now apply (ord_eq_left _ O).
Qed.

End Orderings.

Lemma Ordering_Rcompare : Ordering Rcompare.
Proof.
  split.
  - intros a b. destruct (Rcompare_spec a b), (Rcompare_spec b a);
      try reflexivity; lra.
  - intros a b c.
    destruct (Rcompare_spec a b), (Rcompare_spec b c), (Rcompare_spec a c);
      try reflexivity; try discriminate; lra.
  - intros a b c. destruct (Rcompare_spec a b); try discriminate.
    now subst.
Qed.

Lemma Ordering_Zcompare : Ordering Z.compare.
Proof.
  split.
  - intros a b. apply Z.compare_antisym.
  - intros a b c. rewrite !Z.compare_lt_iff. lia.
  - intros a b c H. apply Z.compare_eq in H. now subst.
Qed.

Lemma ascii_compare_lt_trans (a b c : ascii) :
  Ascii.compare a b = Lt -> Ascii.compare b c = Lt -> Ascii.compare a c = Lt.
Proof. unfold Ascii.compare. rewrite !N.compare_lt_iff. lia. Qed.

Lemma string_compare_lt_trans (s t u : string) :
  String.compare s t = Lt -> String.compare t u = Lt -> String.compare s u = Lt.
Proof.
  revert t u. induction s as [|a s IH]; intros [|b t] [|c u]; cbn;
    try discriminate; try reflexivity.
  destruct (Ascii.compare a b) eqn:Eab; try discriminate;
    destruct (Ascii.compare b c) eqn:Ebc; try discriminate; intros H1 H2.
  - apply Ascii.compare_eq_iff in Eab, Ebc. subst.
    assert (E : Ascii.compare c c = Eq)
      by (unfold Ascii.compare; apply N.compare_refl).
    rewrite E. now apply (IH t u).
  - apply Ascii.compare_eq_iff in Eab. subst. now rewrite Ebc.
  - apply Ascii.compare_eq_iff in Ebc. subst. now rewrite Eab.
  - now rewrite (ascii_compare_lt_trans a b c).
Qed.

Lemma Ordering_string : Ordering String.compare.
Proof.
  split.
  - intros a b. apply String.compare_antisym.
  - apply string_compare_lt_trans.
  - intros a b c H. apply String.compare_eq_iff in H. now subst.
Qed.

(** ** Floor, order and limit *)

Section AssemblerFacts.
Context {engine : Sem.TextSearch}.
Import Sem Sql.

Local Open Scope R_scope.

Local Abbreviation Scored := (Sem.Scored engine).

Lemma Ordering_column (c : order_column) : Ordering (column_compare c).
Proof.
  destruct c.
  - exact (Ordering_on (fun a : Scored => score_value a) _ Ordering_Rcompare).
  - exact (Ordering_on (fun a : Scored => commit_time (row a)) _ Ordering_Zcompare).
  - exact (Ordering_on (fun a : Scored => symbol_name (row a)) _ Ordering_string).
  - exact (Ordering_on (fun a : Scored => package_path (row a)) _ Ordering_string).
Qed.

Lemma Ordering_key (k : order_column * direction) : Ordering (key_compare k).
Proof.
  destruct k as [c []].
  - exact (Ordering_column c).
  - exact (Ordering_flip _ (Ordering_column c)).
Qed.

Lemma Ordering_order (ks : list (order_column * direction)) :
  Ordering (order_compare ks).
Proof.
  induction ks as [|k ks IH].
  - exact Ordering_Eq.
  - exact (Ordering_lexi _ _ (Ordering_key k) IH).
Qed.

Lemma precedesb_true ks (a b : Scored) :
  precedesb ks a b = true <-> precedes ks a b.
Proof.
  unfold precedesb, precedes.
  destruct (order_compare ks a b); split; congruence.
Qed.

Lemma precedes_trans ks (a b c : Scored) :
  precedes ks a b -> precedes ks b c -> precedes ks a c.
Proof. apply (ord_le_trans _ (Ordering_order ks)). Qed.

Lemma precedes_total ks (a b : Scored) :
  ~ precedes ks a b -> precedes ks b a.
Proof.
  unfold precedes. intros H.
  apply (ord_total _ (Ordering_order ks)).
  destruct (order_compare ks a b); try reflexivity;
    exfalso; apply H; discriminate.
Qed.

(** *** Sorting by insertion gives an ordering of the same rows *)

Lemma insert_row_perm ks (a : Scored) (l : list Scored) :
  Permutation (insert_row ks a l) (a :: l).
Proof.
  induction l as [|b l IH]; cbn [insert_row].
  - reflexivity.
  - destruct (precedesb ks a b).
    + reflexivity.
    + rewrite IH. apply perm_swap.
Qed.

Lemma insert_row_ordered ks (a : Scored) (l : list Scored) :
  ordered ks l -> ordered ks (insert_row ks a l).
Proof.
  unfold ordered. induction l as [|b l IH]; intros S; cbn [insert_row].
  - constructor; constructor.
  - destruct (precedesb ks a b) eqn:E.
    + apply precedesb_true in E.
      constructor; [assumption|].
      apply StronglySorted_inv in S as [_ F].
      constructor; [assumption|].
      eapply Forall_impl; [|exact F].
      intros c Hc. now apply (precedes_trans ks a b c).
    + assert (Hba : precedes ks b a).
      { apply precedes_total. rewrite <- precedesb_true. congruence. }
      apply StronglySorted_inv in S as [S F].
      constructor; [now apply IH|].
      rewrite (Forall_forall (precedes ks b)).
      intros c Hc. apply (Permutation_in _ (insert_row_perm ks a l)) in Hc.
      destruct Hc as [<-|Hc]; [assumption|].
      now apply (proj1 (Forall_forall _ _) F).
Qed.

Lemma sort_rows_perm ks (l : list Scored) : Permutation (sort_rows ks l) l.
Proof.
  induction l as [|a l IH]; cbn [sort_rows fold_right].
  - reflexivity.
  - rewrite insert_row_perm. now apply perm_skip.
Qed.

Lemma sort_rows_ordered ks (l : list Scored) : ordered ks (sort_rows ks l).
Proof.
  induction l as [|a l IH]; cbn [sort_rows fold_right].
  - constructor.
  - now apply insert_row_ordered.
Qed.

(** The store answers what [run] computes, among others. *)
Lemma run_answers st q limit (corpus : list (Row engine)) :
  answers st q limit corpus (run st q limit corpus).
Proof.
  unfold answers, run. destruct (limit <? 0)%Z; [reflexivity|].
  exists (sort_rows (order_by st) (kept st q corpus)).
  auto using sort_rows_perm, sort_rows_ordered.
Qed.

(** *** The floor *)

Lemma above_tenth (x : R) : above (Some 0.1) x = true <-> 0.1 < x.
Proof.
  unfold above. destruct (Rlt_dec 0.1 x); split; auto; discriminate.
Qed.

Lemma over_floor_in (f : option R) (rs : list (Row engine * option R)) (a : Scored) :
  In a (over_floor f rs) <->
  In (row a, Some (score_value a)) rs /\ above f (score_value a) = true.
Proof.
  induction rs as [|[r [x|]] rs IH]; cbn [over_floor In].
  - tauto.
  - destruct (above f x) eqn:E; cbn [In]; rewrite IH; split.
    + intros [<-|[H1 H2]]; cbn; auto.
    + intros [[H|H] H2]; auto.
      left. destruct a as [ra xa]. cbn in H. now inversion H.
    + intros [H1 H2]; auto.
    + intros [[H|H] H2]; auto.
      inversion H; subst. congruence.
  - rewrite IH. split.
    + intros [H1 H2]; auto.
    + intros [[H|H] H2]; auto. discriminate.
Qed.

(** *** Two orderings of the same rows show the same keys *)

Lemma precedes_keys (a b : Scored) :
  precedes baseOrder a b <-> key_precedes (sort_key a) (sort_key b).
Proof. reflexivity. Qed.

Lemma key_precedes_antisym k1 k2 :
  key_precedes k1 k2 -> key_precedes k2 k1 -> k1 = k2.
Proof.
  destruct k1 as [[[s1 t1] n1] p1], k2 as [[[s2 t2] n2] p2].
  unfold key_precedes.
  rewrite (ord_sym _ Ordering_Rcompare s2 s1),
          (ord_sym _ Ordering_Zcompare t2 t1),
          (ord_sym _ Ordering_string n1 n2),
          (ord_sym _ Ordering_string p1 p2).
  destruct (Rcompare_spec s2 s1); cbn; try congruence.
  destruct (Z.compare_spec t2 t1); cbn; try congruence.
  destruct (String.compare n1 n2) eqn:En; cbn; try congruence.
  destruct (String.compare p1 p2) eqn:Ep; cbn; try congruence.
  apply String.compare_eq_iff in En, Ep. intros _ _. congruence.
Qed.

Lemma sorted_perm_unique {K : Type} (le : K -> K -> Prop) :
  (forall a b, le a b -> le b a -> a = b) ->
  forall l1 l2,
    StronglySorted le l1 -> StronglySorted le l2 -> Permutation l1 l2 ->
    l1 = l2.
Proof.
  intros anti. induction l1 as [|a l1 IH]; intros l2 S1 S2 P.
  - apply Permutation_nil in P. now subst.
  - destruct l2 as [|b l2].
    + apply Permutation_sym, Permutation_nil in P. discriminate.
    + apply StronglySorted_inv in S1 as [S1 F1].
      apply StronglySorted_inv in S2 as [S2 F2].
      assert (E : a = b).
      { assert (Ha : In a (b :: l2))
          by (apply (Permutation_in _ P); now left).
        assert (Hb : In b (a :: l1))
          by (apply (Permutation_in _ (Permutation_sym P)); now left).
        destruct Ha as [Ha|Ha]; [now subst|].
        destruct Hb as [Hb|Hb]; [now subst|].
        apply anti.
        - now apply (proj1 (Forall_forall _ _) F1).
        - now apply (proj1 (Forall_forall _ _) F2). }
      subst b. f_equal. apply IH; auto.
      now apply Permutation_cons_inv in P.
Qed.

Lemma in_firstn {X : Type} (n : nat) (l : list X) (a : X) :
  In a (firstn n l) -> In a l.
Proof.
  intros H. rewrite <- (firstn_skipn n l). apply in_or_app. now left.
Qed.

Lemma sorted_map {X K : Type} (f : X -> K) (le : K -> K -> Prop) (l : list X) :
  StronglySorted (fun a b => le (f a) (f b)) l -> StronglySorted le (map f l).
Proof.
  induction 1 as [|a l S IH F]; cbn; constructor; auto.
  rewrite Forall_map. exact F.
Qed.

Lemma orderings_agree (l1 l2 : list Scored) :
  ordered baseOrder l1 -> ordered baseOrder l2 -> Permutation l1 l2 ->
  map sort_key l1 = map sort_key l2.
Proof.
  intros S1 S2 P.
  apply (sorted_perm_unique key_precedes key_precedes_antisym).
  - now apply (sorted_map sort_key key_precedes).
  - now apply (sorted_map sort_key key_precedes).
  - now apply Permutation_map.
Qed.

End AssemblerFacts.

(** ** The weight of popularity *)

Section WeightFacts.
Import Sem.

Local Open Scope R_scope.

Lemma weight_zero : popularity_weight 0 = 1.
Proof. unfold popularity_weight. rewrite Rplus_0_r. apply ln_exp. Qed.

Lemma weight_increasing (n1 n2 : Z) :
  (0 <= n1 < n2)%Z -> popularity_weight n1 < popularity_weight n2.
Proof.
  intros [H0 H]. unfold popularity_weight.
  pose proof (exp_pos 1). apply IZR_le in H0. apply IZR_lt in H.
  apply ln_increasing; lra.
Qed.

Lemma weight_monotone (n1 n2 : Z) :
  (0 <= n1 <= n2)%Z -> popularity_weight n1 <= popularity_weight n2.
Proof.
  intros [H0 H]. destruct (Z.eq_dec n1 n2) as [->|Hne]; [lra|].
  apply Rlt_le, weight_increasing. lia.
Qed.

Lemma weight_at_least_one (n : Z) : (0 <= n)%Z -> 1 <= popularity_weight n.
Proof.
  intros H. rewrite <- weight_zero. apply weight_monotone. lia.
Qed.


End WeightFacts.

(** ** Rows of the one-word statements pass the floor *)

Section SingleWordFacts.
Context {engine : Sem.TextSearch}.
Import Sem Sql.

Local Open Scope R_scope.

Lemma over_floor_weighted (rows : list (Row engine)) :
  Forall (fun r => (0 <= imported_by_count r)%Z) rows ->
  over_floor (Some 0.1)
    (map (fun r => (r, Some (popularity_weight (imported_by_count r)))) rows) =
  map weighted rows.
Proof.
  induction 1 as [|r rows Hr _ IH]; [reflexivity|].
  cbn [map over_floor].
  assert (A : above (Some 0.1) (popularity_weight (imported_by_count r)) = true).
  { apply above_tenth. pose proof (weight_at_least_one _ Hr). lra. }
  rewrite A, IH. reflexivity.
Qed.

Lemma single_word_score (s : strategy) (q : string) (r : Row engine) :
  s <> MultiWord ->
  eval_num (score (query s)) q r = Some (popularity_weight (imported_by_count r)).
Proof.
  intros Hs. destruct s; try congruence; apply popularity_score.
Qed.

Lemma kept_single_word (s : strategy) (q : string) (corpus : list (Row engine)) :
  s <> MultiWord ->
  Forall (fun r => (0 <= imported_by_count r)%Z) corpus ->
  kept (query s) q corpus = map weighted (List.filter (selected (query s) q) corpus).
Proof.
  intros Hs Hc. unfold kept, results. rewrite floor_tenth.
  rewrite (map_ext _ (fun r => (r, Some (popularity_weight (imported_by_count r))))).
  - apply over_floor_weighted.
    rewrite Forall_forall in *. intros r Hr.
    apply filter_In in Hr as [Hr _]. auto.
  - intros r. now rewrite single_word_score.
Qed.



(** The comparison of [baseOrder], in words. *)
Lemma precedes_baseOrder (a b : Scored engine) :
  precedes baseOrder a b <->
  score_value b < score_value a \/
  (score_value a = score_value b /\
   ((commit_time (row b) < commit_time (row a))%Z \/
    (commit_time (row a) = commit_time (row b) /\
     (String.compare (symbol_name (row a)) (symbol_name (row b)) = Lt \/
      (symbol_name (row a) = symbol_name (row b) /\
       String.compare (package_path (row a)) (package_path (row b)) <> Gt))))).
Proof.
  unfold precedes, baseOrder.
  cbn [order_compare key_compare column_compare fst snd].
  destruct (Rcompare_spec (score_value b) (score_value a)) as [E|L|G].
  - destruct (Z.compare_spec (commit_time (row b)) (commit_time (row a)))
      as [E'|L'|G'].
    + destruct (String.compare (symbol_name (row a)) (symbol_name (row b))) eqn:En.
      * apply String.compare_eq_iff in En.
        destruct (String.compare (package_path (row a)) (package_path (row b)));
          split; intros H; try discriminate; try congruence.
        -- right. split; [auto|]. right. split; [auto|]. right. split; [auto|].
           discriminate.
        -- right. split; [auto|]. right. split; [auto|]. right. split; [auto|].
           discriminate.
        -- exfalso. destruct H as [H|[_ [H|[_ [H|[_ H]]]]]];
             try lra; try lia; try discriminate; congruence.
      * split; [|discriminate]. intros _.
        right. split; [auto|]. right. split; [auto|]. now left.
      * split; [congruence|]. intros H. exfalso.
        destruct H as [H|[_ [H|[_ [H|[H _]]]]]]; try lra; try lia; try discriminate.
        subst. rewrite H in En.
        rewrite (ord_refl _ Ordering_string) in En. discriminate.
    + split; [|discriminate]. intros _. right. split; [auto|]. now left.
    + split; [congruence|]. intros H. exfalso.
      destruct H as [H|[_ [H|[H _]]]]; try lra; lia.
  - split; [|discriminate]. intros _. now left.
  - split; [congruence|]. intros H. exfalso.
    destruct H as [H|[H _]]; lra.
Qed.

End SingleWordFacts.

(** ** The properties of the specification *)

Section Claims.
Import Sem Sql.

Local Open Scope R_scope.






(** On the plain engine the two sides are met by different words. *)
Example multi_word_two_tokens :
  selected (query MultiWord) "http Server" Plain.http_server = true /\
  selected (query MultiWord) "Server" Plain.http_server = false.
Proof. split; reflexivity. Qed.



(** C4, as the specification has it, fails in its last part: the order
    of the result is not fixed among rows that agree on all four keys.  The
    two build variants of one symbol have the same score, commit time,
    symbol name and package path, and the store may answer them in either
    order. *)
Lemma assemble_ties_counterexample :
  exists o1 o2,
    answers (query BareSymbol) "Marshal" 10 Plain.build_variants o1 /\
    answers (query BareSymbol) "Marshal" 10 Plain.build_variants o2 /\
    returned o1 = Some Plain.build_variants /\
    returned o2 = Some [Plain.json_marshal_windows; Plain.json_marshal] /\
    returned o1 <> returned o2.
Proof.
  assert (K : kept (query BareSymbol) "Marshal" Plain.build_variants =
              [weighted Plain.json_marshal; weighted Plain.json_marshal_windows]).
  { rewrite kept_single_word; [reflexivity | discriminate |].
    repeat constructor; cbn; lia. }
  assert (P : forall a b : Row Plain.engine,
             In a Plain.build_variants ->
             In b Plain.build_variants ->
             precedes baseOrder (weighted a) (weighted b)).
  { intros a b Ha Hb. apply precedes_baseOrder.
    right. split.
    - destruct Ha as [<-|[<-|[]]], Hb as [<-|[<-|[]]]; reflexivity.
    - right. split.
      + destruct Ha as [<-|[<-|[]]], Hb as [<-|[<-|[]]]; reflexivity.
      + right. split.
        * destruct Ha as [<-|[<-|[]]], Hb as [<-|[<-|[]]]; reflexivity.
        * destruct Ha as [<-|[<-|[]]], Hb as [<-|[<-|[]]]; vm_compute;
            discriminate. }
  exists (Rows [weighted Plain.json_marshal; weighted Plain.json_marshal_windows]),
         (Rows [weighted Plain.json_marshal_windows; weighted Plain.json_marshal]).
  assert (S : forall a b : Row Plain.engine,
             In a Plain.build_variants ->
             In b Plain.build_variants ->
             ordered baseOrder [weighted a; weighted b]).
  { intros a b Ha Hb. unfold ordered.
    apply SSorted_cons.
    - apply SSorted_cons; constructor.
    - constructor; [now apply P | constructor]. }
  split; [|split; [|split; [reflexivity|split; [reflexivity|]]]].
  - unfold answers. cbn [Z.ltb Z.compare].
    exists [weighted Plain.json_marshal; weighted Plain.json_marshal_windows].
    rewrite K. split; [reflexivity|]. split; [|reflexivity].
    apply S; cbn; auto.
  - unfold answers. cbn [Z.ltb Z.compare].
    exists [weighted Plain.json_marshal_windows; weighted Plain.json_marshal].
    rewrite K. split; [apply perm_swap|]. split; [|reflexivity].
    apply S; cbn; auto.
  - intros H.
    apply (f_equal (fun o => match o with
                             | Some (r :: _) => goos r
                             | _ => EmptyString
                             end)) in H.
    discriminate H.
Qed.

(** C4, amended.  For a positive limit the rows of [results] whose score
    is not above 0.1 are dropped, the others are ordered by score
    descending, then commit time descending, then symbol name ascending,
    then package path ascending, and the first [limit] of them are
    answered.  Every answered row has a score above 0.1.  The order is
    fixed up to rows that agree on all four keys: any two answers show the
    same sequence of keys. *)
Theorem assemble_floor_order_limit {engine : TextSearch}
    (s : strategy) (q : string) (limit : Z) (corpus : list (Row engine)) :
  (0 < limit)%Z ->
  (forall a,
      In a (kept (query s) q corpus) <->
      In (row a, Some (score_value a)) (results (query s) q corpus) /\
      0.1 < score_value a) /\
  (forall a b,
      precedes (order_by (query s)) a b <->
      score_value b < score_value a \/
      (score_value a = score_value b /\
       ((commit_time (row b) < commit_time (row a))%Z \/
        (commit_time (row a) = commit_time (row b) /\
         (String.compare (symbol_name (row a)) (symbol_name (row b)) = Lt \/
          (symbol_name (row a) = symbol_name (row b) /\
           String.compare (package_path (row a)) (package_path (row b)) <> Gt)))))) /\
  answers (query s) q limit corpus (run (query s) q limit corpus) /\
  (forall o,
      answers (query s) q limit corpus o ->
      exists l,
        Permutation l (kept (query s) q corpus) /\
        ordered (order_by (query s)) l /\
        o = Rows (firstn (Z.to_nat limit) l) /\
        (List.length (firstn (Z.to_nat limit) l) <= Z.to_nat limit)%nat /\
        Forall (fun a => 0.1 < score_value a) (firstn (Z.to_nat limit) l)) /\
  (forall l1 l2,
      answers (query s) q limit corpus (Rows l1) ->
      answers (query s) q limit corpus (Rows l2) ->
      map sort_key l1 = map sort_key l2).
Proof.
  intros Hl.
  assert (Hk : forall a,
             In a (kept (query s) q corpus) <->
             In (row a, Some (score_value a)) (results (query s) q corpus) /\
             0.1 < score_value a).
  { intros a. unfold kept. rewrite floor_tenth, over_floor_in, above_tenth.
    reflexivity. }
  assert (Hlt : (limit <? 0)%Z = false) by (apply Z.ltb_ge; lia).
  split; [exact Hk|].
  split; [intros a b; apply precedes_baseOrder|].
  split; [apply run_answers|].
  split.
  - intros o Ho. unfold answers in Ho. rewrite Hlt in Ho.
    destruct Ho as (l & Hp & Hs & ->).
    exists l. split; [exact Hp|]. split; [exact Hs|]. split; [reflexivity|].
    split.
    + apply firstn_le_length.
    + rewrite Forall_forall. intros a Ha.
      apply in_firstn in Ha. apply (Permutation_in _ Hp) in Ha.
      now apply Hk in Ha.
  - intros l1 l2 H1 H2. unfold answers in H1, H2. rewrite Hlt in H1, H2.
    destruct H1 as (m1 & Hp1 & Hs1 & E1), H2 as (m2 & Hp2 & Hs2 & E2).
    injection E1 as ->. injection E2 as ->.
    rewrite <- !firstn_map. f_equal.
    apply orderings_agree; auto.
    now rewrite Hp1, Hp2.
Qed.

Lemma assemble_floor_order_limit_witness :
  (0 < 10)%Z /\
  answers (query BareSymbol) "Marshal" 10 [Plain.json_marshal; Plain.http_server]
    (run (query BareSymbol) "Marshal" 10 [Plain.json_marshal; Plain.http_server]).
Proof.
  split; [lia|].
  apply (assemble_floor_order_limit BareSymbol "Marshal" 10
           [Plain.json_marshal; Plain.http_server]).
  lia.
Defined.


(** A package whose name has an underscore is found by that name, and not
    by the name with a hyphen. *)
Example underscore_head :
  selected (query QualifiedReference) "my_pkg.Foo" Plain.my_pkg_foo = true /\
  selected (query QualifiedReference) "my-pkg.Foo" Plain.my_pkg_foo = false.
Proof. split; reflexivity. Qed.






(** C8, as the specification has it, fails: the package has no check of
    the limit and no InvalidLimit.  With the limit 0 the statement is run
    and the store answers with no rows, where a limit of 1 brings the
    row. *)
Lemma zero_limit_counterexample :
  run (query BareSymbol) "Marshal" 0 [Plain.json_marshal] = Rows [] /\
  run (query BareSymbol) "Marshal" 0 [Plain.json_marshal] <> Refused /\
  returned (run (query BareSymbol) "Marshal" 1 [Plain.json_marshal]) =
    Some [Plain.json_marshal].
Proof.
  assert (K : kept (query BareSymbol) "Marshal" [Plain.json_marshal] =
              [weighted Plain.json_marshal]).
  { rewrite kept_single_word; [reflexivity | discriminate |].
    repeat constructor; cbn; lia. }
  unfold run. rewrite K. cbn [Z.ltb Z.compare].
  split; [reflexivity|]. split; [discriminate | reflexivity].
Qed.

(** C8, amended.  The limit is not looked at when the statement is built:
    the text is the same for every limit and ends in [LIMIT $2].  With the
    limit 0 the store answers with no rows; a negative limit is refused by
    the store when the statement is run. *)
Theorem limit_not_checked {engine : TextSearch}
    (s : strategy) (q : string) (limit : Z) (corpus : list (Row engine)) :
  (limit <= 0)%Z ->
  (exists front,
      lex (raw s) = (front ++ [Word "LIMIT"; Word "$2"; Punct ";"])%list) /\
  (limit = 0%Z ->
   forall o, answers (query s) q limit corpus o <-> o = Rows []) /\
  ((limit < 0)%Z ->
   forall o, answers (query s) q limit corpus o <-> o = Refused) /\
  run (query s) q limit corpus = (if (limit <? 0)%Z then Refused else Rows []).
Proof.
  intros Hl. split; [|split; [|split]].
  - rewrite raw_is_query. unfold statement_tokens.
    eexists. rewrite !app_assoc. reflexivity.
  - intros ->. intros o. unfold answers. cbn [Z.ltb Z.compare Z.to_nat].
    split.
    + intros (l & _ & _ & ->). reflexivity.
    + intros ->. exists (sort_rows (order_by (query s)) (kept (query s) q corpus)).
      auto using sort_rows_perm, sort_rows_ordered.
  - intros Hn o. unfold answers.
    destruct (Z.ltb_spec limit 0); [reflexivity | lia].
  - unfold run. destruct (Z.ltb_spec limit 0); [reflexivity|].
    assert (limit = 0%Z) as -> by lia. reflexivity.
Qed.

Lemma limit_not_checked_witness :
  (0 <= 0)%Z /\
  run (query MultiWord) "http server" 0 [Plain.http_server] = Rows [].
Proof.
  split; [lia|].
  apply (limit_not_checked MultiWord "http server" 0 [Plain.http_server]). lia.
Defined.

(** C9.  Normalisation is idempotent: normalising a normalised text
    changes nothing. *)
Theorem normalize_twice (x : string) :
  normalize (normalize x) = normalize x /\
  eval_text (normalized (normalized Arg1)) x = eval_text (normalized Arg1) x.
Proof.
  split; [apply normalize_idempotent|].
  cbn [eval_text normalized option_map].
  f_equal. apply normalize_idempotent.
Qed.



End Claims.

(** ** More about the functions of the package *)

Section PackageFacts.

Local Open Scope nat_scope.

Lemma length_append (s t : string) :
  String.length (s ++ t) = String.length s + String.length t.
Proof. induction s as [|c s IH]; cbn; [reflexivity | now rewrite IH]. Qed.

Lemma prefix_cons (a b : ascii) (s t : string) :
  String.prefix (String a s) (String b t) = Ascii.eqb a b && String.prefix s t.
Proof.
  change (String.prefix (String a s) (String b t))
    with (if ascii_dec a b then String.prefix s t else false).
  destruct (ascii_dec a b) as [->|Hne].
  - now rewrite Ascii.eqb_refl.
  - apply Ascii.eqb_neq in Hne. now rewrite Hne.
Qed.

Lemma prefix_empty (s : string) : String.prefix "" s = true.
Proof. now destruct s. Qed.

Lemma prefix_parameter (c : ascii) (s : string) :
  Ascii.eqb "$" c = false -> String.prefix "$1" (String c s) = false.
Proof. intros H. now rewrite prefix_cons, H. Qed.

Lemma replace_no_parameter (new s : string) :
  Pg.mem_char "$" s = false -> replace_from "$1" new 0 s = s.
Proof.
  induction s as [|c s IH]; intros H; [reflexivity|].
  cbn [Pg.mem_char] in H. apply orb_false_iff in H as [H1 H2].
  cbn [replace_from]. rewrite (prefix_parameter c s H1). now rewrite IH.
Qed.

Lemma replace_one_parameter (new pre post : string) :
  Pg.mem_char "$" pre = false -> Pg.mem_char "$" post = false ->
  replace_from "$1" new 0 (pre ++ "$1" ++ post) = pre ++ new ++ post.
Proof.
  intros Hpre Hpost. induction pre as [|c pre IH].
  - change ("" ++ "$1" ++ post) with (String "$" (String "1" post)).
    cbn [replace_from String.length Nat.sub].
    rewrite !prefix_cons, prefix_empty.
    cbn [Ascii.eqb Bool.eqb andb replace_from String.append].
    now rewrite replace_no_parameter.
  - cbn [Pg.mem_char] in Hpre. apply orb_false_iff in Hpre as [H1 H2].
    change (String c pre ++ "$1" ++ post) with (String c (pre ++ "$1" ++ post)).
    cbn [replace_from]. rewrite (prefix_parameter c _ H1). now rewrite IH.
Qed.

(** X1.  In a text that holds [$1] once and no other [$], [processArg]
    puts [replace($1, '_', '-')] in the place of [$1] and leaves what
    stands before and behind it. *)
Theorem processArg_wraps_parameter (pre post : string) :
  Pg.mem_char "$" pre = false -> Pg.mem_char "$" post = false ->
  Go.processArg (pre ++ "$1" ++ post) = pre ++ "replace($1, '_', '-')" ++ post.
Proof.
  intros Hpre Hpost. unfold Go.processArg.
  assert (E : (if (String.length (pre ++ "$1" ++ post) =? 2)%nat
                   && Go.HasPrefix (pre ++ "$1" ++ post) "$"
               then pre ++ "$1" ++ post else "$1") = "$1").
  { destruct pre as [|c pre].
    - destruct post as [|d post]; reflexivity.
    - change (String c pre ++ "$1" ++ post) with (String c (pre ++ "$1" ++ post)).
      cbn [Pg.mem_char] in Hpre. apply orb_false_iff in Hpre as [H1 _].
      unfold Go.HasPrefix. rewrite prefix_cons, H1.
      now rewrite andb_false_r. }
  rewrite E. unfold Go.ReplaceAll. cbn [String.eqb].
  now apply replace_one_parameter.
Qed.

Lemma processArg_wraps_parameter_witness :
  Pg.mem_char "$" "lower(" = false /\ Pg.mem_char "$" ")" = false /\
  Go.processArg "lower($1)" = "lower(replace($1, '_', '-'))".
Proof.
  split; [reflexivity|]. split; [reflexivity|].
  apply (processArg_wraps_parameter "lower(" ")"); reflexivity.
Defined.

End PackageFacts.

(** ** More about what the statements select *)

Section SelectionFacts.
Import Sem Sql.




(** *** The pattern on inputs that are no qualified references *)






End SelectionFacts.

(** ** More about the answers of the store *)

Section AnswerFacts.
Import Sem Sql.

Local Open Scope R_scope.





End AnswerFacts.

(** ** The details pages of the frontend *)

Section FrontendFacts.
Import Frontend.

Local Open Scope nat_scope.

Lemma prefix_app_same (a b c : string) :
  String.prefix (a ++ b) (a ++ c) = String.prefix b c.
Proof.
  induction a as [|x a IH]; [reflexivity|].
  change (String x a ++ b) with (String x (a ++ b)).
  change (String x a ++ c) with (String x (a ++ c)).
  now rewrite prefix_cons, Ascii.eqb_refl, IH.
Qed.

Lemma prefix_app_left (a c : string) : String.prefix a (a ++ c) = true.
Proof.
  rewrite <- (append_empty a) at 1. rewrite prefix_app_same. apply prefix_empty.
Qed.

Lemma drop_app (a b : string) : drop (String.length a) (a ++ b) = b.
Proof. induction a as [|x a IH]; [reflexivity | exact IH]. Qed.

Lemma take_app (a b : string) : take (String.length a) (a ++ b) = a.
Proof.
  unfold take. induction a as [|x a IH].
  - now destruct b.
  - cbn [String.length String.append String.substring]. now rewrite IH.
Qed.

(** *** Imports and importers *)

Lemma sort_imports_fold (modulePath : string) (imports e m s : list string) :
  fold_left (sort_import modulePath) imports (e, m, s) =
  ((e ++ List.filter (is_external modulePath) imports)%list,
   (m ++ List.filter (is_internal modulePath) imports)%list,
   (s ++ List.filter is_std imports)%list).
Proof.
  revert e m s. induction imports as [|p imports IH]; intros e m s.
  - cbn. now rewrite !app_nil_r.
  - cbn [fold_left List.filter]. unfold sort_import at 2.
    unfold is_external, is_internal, is_std.
    destruct (inStdLib p); cbn [negb andb].
    + rewrite IH. now rewrite <- app_assoc.
    + destruct (Go.HasPrefix (p ++ "/") (modulePath ++ "/")); cbn [negb];
        rewrite IH; now rewrite <- app_assoc.
Qed.

Lemma sort_importers_fold (modulePath : string) (paths e m : list string) :
  fold_left (sort_importer modulePath) paths (e, m) =
  ((e ++ List.filter (fun p => negb (Go.HasPrefix p modulePath)) paths)%list,
   (m ++ List.filter (fun p => Go.HasPrefix p modulePath) paths)%list).
Proof.
  revert e m. induction paths as [|p paths IH]; intros e m.
  - cbn. now rewrite !app_nil_r.
  - cbn [fold_left List.filter]. unfold sort_importer at 2.
    destruct (Go.HasPrefix p modulePath); cbn [negb];
      rewrite IH; now rewrite <- app_assoc.
Qed.

(** X4.  [fetchImportedByDetails] counts an importer to the module
    whenever its path begins with the text of the module path, also when
    the module path ends in the middle of a path element; an import of
    the same path is external for [fetchImportsDetails], which asks for
    a slash or the end behind the module path. *)
Theorem importers_by_text_prefix {E : Type}
    (path modulePath rest : string) (c : ascii) (paths : list string) :
  Ascii.eqb "/" c = false ->
  inStdLib (modulePath ++ String c rest) = false ->
  fetchImportedByDetails (Ok paths) path modulePath =
    Ok (E := fetch_error E)
       {| ImportedBy_ModulePath := modulePath;
          ExternalImportedBy :=
            List.filter (fun p => negb (Go.HasPrefix p modulePath)) paths;
          InternalImportedBy :=
            List.filter (fun p => Go.HasPrefix p modulePath) paths |} /\
  fetchImportedByDetails (Ok [modulePath ++ String c rest]) path modulePath =
    Ok (E := fetch_error E)
       {| ImportedBy_ModulePath := modulePath;
          ExternalImportedBy := [];
          InternalImportedBy := [modulePath ++ String c rest] |} /\
  fetchImportsDetails (Ok [modulePath ++ String c rest]) path "" modulePath =
    Ok (E := fetch_error E)
       {| Imports_ModulePath := modulePath;
          ExternalImports := [modulePath ++ String c rest];
          InternalImports := [];
          StdLib := [] |}.
Proof.
  intros Hc Hstd. split; [|split].
  - unfold fetchImportedByDetails. now rewrite sort_importers_fold.
  - unfold fetchImportedByDetails. rewrite sort_importers_fold.
    cbn [List.filter app]. unfold Go.HasPrefix. rewrite prefix_app_left.
    reflexivity.
  - unfold fetchImportsDetails. rewrite sort_imports_fold.
    cbn [List.filter app]. unfold is_external, is_internal, is_std.
    rewrite Hstd. cbn [negb andb]. unfold Go.HasPrefix.
    rewrite append_assoc, prefix_app_same.
    change (String c rest ++ "/") with (String c (rest ++ "/")).
    rewrite prefix_cons, Hc. reflexivity.
Qed.

Lemma importers_by_text_prefix_witness :
  Ascii.eqb "/" "c" = false /\
  inStdLib "example.com/abc/x" = false /\
  fetchImportedByDetails (Ok ["example.com/abc/x"]) "example.com/ab" "example.com/ab" =
    Ok (E := fetch_error unit)
       {| ImportedBy_ModulePath := "example.com/ab";
          ExternalImportedBy := [];
          InternalImportedBy := ["example.com/abc/x"] |}.
Proof.
  split; [reflexivity|]. split; [reflexivity|].
  apply (importers_by_text_prefix (E := unit) "example.com/ab" "example.com/ab"
           "/x" "c" []); reflexivity.
Defined.

(** *** Elapsed time *)

(** X5.  [elapsedTime] by the whole hours that have passed: below 6
    hours, one hour apart, it writes the hours, also none and, for a date
    that is still to come, a negative number of them; from 6 to 23 hours
    "today"; from
    24 to 47 "1 day ago"; from 48 to 143 the whole days, 2 to 5; and from
    144 hours on the date. *)
Theorem elapsedTime_ranges (h : Z) (formatted : string) :
  ((h < 6)%Z -> h <> 1%Z -> elapsedTime h formatted = itoa h ++ " hours ago") /\
  ((6 <= h < 24)%Z -> elapsedTime h formatted = "today") /\
  ((24 <= h < 48)%Z -> elapsedTime h formatted = "1 day ago") /\
  ((48 <= h < 144)%Z ->
   elapsedTime h formatted = itoa (h / 24) ++ " days ago" /\ (2 <= h / 24 <= 5)%Z) /\
  ((144 <= h)%Z -> elapsedTime h formatted = formatted).
Proof.
  unfold elapsedTime.
  split; [|split; [|split; [|split]]].
  - intros H1 H2.
    destruct (Z.eqb_spec h 1); [congruence|].
    destruct (Z.ltb_spec h 6); [reflexivity | lia].
  - intros H. rewrite Z.quot_div_nonneg by lia.
    destruct (Z.eqb_spec h 1); [lia|].
    destruct (Z.ltb_spec h 6); [lia|].
    assert (h / 24 = 0)%Z as -> by (apply Z.div_small; lia). reflexivity.
  - intros H. rewrite Z.quot_div_nonneg by lia.
    destruct (Z.eqb_spec h 1); [lia|].
    destruct (Z.ltb_spec h 6); [lia|].
    assert (h / 24 = 1)%Z as ->.
    { symmetry. apply (Z.div_unique h 24 1 (h - 24)); lia. }
    reflexivity.
  - intros H. rewrite Z.quot_div_nonneg by lia.
    assert (B : (2 <= h / 24 <= 5)%Z).
    { split.
      - apply Z.div_le_lower_bound; lia.
      - apply Z.lt_succ_r. apply Z.div_lt_upper_bound; lia. }
    split; [|exact B].
    destruct (Z.eqb_spec h 1); [lia|].
    destruct (Z.ltb_spec h 6); [lia|].
    destruct (Z.ltb_spec (h / 24) 1); [lia|].
    destruct (Z.eqb_spec (h / 24) 1); [lia|].
    destruct (Z.ltb_spec (h / 24) 6); [reflexivity | lia].
  - intros H. rewrite Z.quot_div_nonneg by lia.
    assert (B : (6 <= h / 24)%Z) by (apply Z.div_le_lower_bound; lia).
    destruct (Z.eqb_spec h 1); [lia|].
    destruct (Z.ltb_spec h 6); [lia|].
    destruct (Z.ltb_spec (h / 24) 1); [lia|].
    destruct (Z.eqb_spec (h / 24) 1); [lia|].
    destruct (Z.ltb_spec (h / 24) 6); [lia | reflexivity].
Qed.

Lemma elapsedTime_ranges_witness :
  elapsedTime (-3) "Jan  2, 2006" = "-3 hours ago" /\
  elapsedTime 23 "Jan  2, 2006" = "today" /\
  elapsedTime 47 "Jan  2, 2006" = "1 day ago" /\
  elapsedTime 143 "Jan  2, 2006" = "5 days ago" /\
  elapsedTime 144 "Jan  2, 2006" = "Jan  2, 2006".
Proof.
  destruct (elapsedTime_ranges (-3) "Jan  2, 2006") as (H1 & _).
  destruct (elapsedTime_ranges 23 "Jan  2, 2006") as (_ & H2 & _).
  destruct (elapsedTime_ranges 47 "Jan  2, 2006") as (_ & _ & H3 & _).
  destruct (elapsedTime_ranges 143 "Jan  2, 2006") as (_ & _ & _ & H4 & _).
  destruct (elapsedTime_ranges 144 "Jan  2, 2006") as (_ & _ & _ & _ & H5).
  split; [apply H1; lia|]. split; [apply H2; lia|]. split; [apply H3; lia|].
  split; [apply H4; lia|]. apply H5; lia.
Defined.

(** *** The name of a package *)

(** X6.  [packageName] gives back a name other than "main" whatever the
    path is.  For the name "main" it panics on a path of fewer than three
    characters, and on a path that ends in "/v1" it gives the base of
    what stands before. *)
Theorem packageName_cases (Base : string -> string)
    (SplitPathVersion : string -> string * (string * bool))
    (name path before : string) :
  (name <> "main"%string -> packageName Base SplitPathVersion name path = Some name) /\
  (String.length path < 3 -> packageName Base SplitPathVersion "main" path = None) /\
  packageName Base SplitPathVersion "main" (before ++ "/v1") = Some (Base before).
Proof.
  unfold packageName. split; [|split].
  - intros H. apply String.eqb_neq in H. now rewrite H.
  - intros H. cbn [String.eqb Ascii.eqb Bool.eqb negb andb].
    apply Nat.ltb_lt in H. now rewrite H.
  - cbn [String.eqb Ascii.eqb Bool.eqb negb andb].
    rewrite length_append. cbn [String.length].
    destruct (Nat.ltb_spec (String.length before + 3) 3); [lia|].
    replace (String.length before + 3 - 3) with (String.length before) by lia.
    rewrite drop_app, take_app. reflexivity.
Qed.

Lemma packageName_cases_witness :
  packageName (fun s => s) (fun s => (s, (""%string, true))) "http" "x" = Some "http"%string /\
  packageName (fun s => s) (fun s => (s, (""%string, true))) "main" "x" = None.
Proof.
  destruct (packageName_cases (fun s => s) (fun s => (s, (""%string, true)))
              "http" "x" "") as (H1 & H2 & _).
  split; [apply H1; discriminate | apply H2; cbn; lia].
Defined.

End FrontendFacts.

(** ** The groups of versions *)

Section VersionsFacts.
Import Frontend.

Local Open Scope nat_scope.

Variable semver_Major : string -> string.
Variable semver_MajorMinor : string -> string.

Lemma change_at_last {A : Type} (f : A -> A) (l : list A) (a : A) :
  change_at (List.length l) f (l ++ [a]) = (l ++ [f a])%list.
Proof. induction l as [|x l IH]; cbn; [reflexivity | now rewrite IH]. Qed.

Lemma last_split {A : Type} (l : list A) (i : nat) :
  S i = List.length l -> exists l' a, l = (l' ++ [a])%list /\ List.length l' = i.
Proof.
  intros H. destruct l as [|x l]; [discriminate|].
  destruct (exists_last (l := x :: l)) as (l' & a & E); [discriminate|].
  exists l', a. split; [exact E|].
  rewrite E, length_app in H. cbn in H. lia.
Qed.

Lemma flat_map_last {A B : Type} (F : A -> list B) (l : list A) (a : A) :
  flat_map F (l ++ [a]) = (flat_map F l ++ F a)%list.
Proof. rewrite flat_map_app. cbn. now rewrite app_nil_r. Qed.

Lemma length_change_at {A : Type} (f : A -> A) (l : list A) (n : nat) :
  List.length (change_at n f l) = List.length l.
Proof.
  revert n. induction l as [|x l IH]; intros [|n]; cbn; try reflexivity.
  now rewrite IH.
Qed.

Lemma flat_map_change_last {A B : Type} (F : A -> list B) (f : A -> A)
    (extra : list B) (l : list A) (i : nat) :
  S i = List.length l -> (forall a, F (f a) = (F a ++ extra)%list) ->
  flat_map F (change_at i f l) = (flat_map F l ++ extra)%list.
Proof.
  intros H Hf. destruct (last_split l i H) as (l' & a & El & Hl).
  subst l i. rewrite change_at_last, !flat_map_last, Hf.
  now rewrite app_assoc.
Qed.

Lemma flat_map_nested {A B C : Type} (F : B -> list C) (G : A -> list B) (l : list A) :
  flat_map (fun x => flat_map F (G x)) l = flat_map F (flat_map G l).
Proof.
  induction l as [|x l IH]; [reflexivity|].
  cbn [flat_map]. now rewrite flat_map_app, IH.
Qed.

Lemma flat_map_same_on {A B : Type} (F G : A -> list B) (l : list A) :
  (forall x, In x l -> F x = G x) -> flat_map F l = flat_map G l.
Proof.
  induction l as [|a l IH]; intros H; [reflexivity|].
  cbn [flat_map]. rewrite (H a (or_introl eq_refl)), IH; [reflexivity|].
  intros x Hx. apply H. now right.
Qed.

Lemma flat_map_through_places {A B : Type} (F : A -> list B) (l : list A) (d : A) :
  flat_map (fun i => F (nth i l d)) (seq 0 (List.length l)) = flat_map F l.
Proof.
  induction l as [|a l IH] using rev_ind; [reflexivity|].
  rewrite length_app. cbn [List.length]. rewrite Nat.add_1_r, seq_S.
  rewrite !flat_map_last. cbn [Nat.add].
  rewrite nth_middle. f_equal.
  rewrite <- IH. apply flat_map_same_on.
  intros i Hi. apply in_seq in Hi. now rewrite app_nth1 by lia.
Qed.

(** Read through the pointers, well-grouped stores give their entries. *)
Lemma well_grouped_entries (g : groups) (L : list Entry) :
  well_grouped g L -> entries g = L.
Proof.
  intros (I1 & I2 & I3 & I4 & _).
  unfold entries. rewrite I1.
  unfold entries_of_series.
  rewrite (flat_map_through_places
             (fun s => flat_map (entries_of_major g) (MajorVersions s))).
  rewrite flat_map_nested, I2.
  unfold entries_of_major.
  rewrite (flat_map_through_places
             (fun m => flat_map (entries_of_minor g) (MinorVersions m))).
  rewrite flat_map_nested, I3.
  unfold entries_of_minor.
  now rewrite (flat_map_through_places PatchVersions).
Qed.

Lemma start_series_grouped (series : string) (latest : Entry) (g : groups)
    (L : list Entry) :
  well_grouped g L ->
  well_grouped (start_series series latest g) L /\
  curSeries (start_series series latest g) <> None.
Proof.
  intros (I1 & I2 & I3 & I4 & C1 & C2 & C3). unfold start_series.
  destruct (curSeries g) as [s|] eqn:Es.
  - destruct (negb _).
    + split; [|discriminate].
      unfold well_grouped. cbn [series_store major_store minor_store svg
                                curSeries curMajor curMinor points_to_last].
      rewrite length_app, flat_map_last. cbn [List.length MajorVersions].
      rewrite Nat.add_1_r, seq_S, I1, app_nil_r. cbn [Nat.add]. auto 10.
    + split; [|congruence].
      unfold well_grouped. rewrite Es. auto 10.
  - split; [|discriminate].
    unfold well_grouped. cbn [series_store major_store minor_store svg
                              curSeries curMajor curMinor points_to_last].
    rewrite length_app, flat_map_last. cbn [List.length MajorVersions].
    rewrite Nat.add_1_r, seq_S, I1, app_nil_r. cbn [Nat.add]. auto 10.
Qed.

Lemma start_major_grouped (major : string) (latest : Entry) (g : groups)
    (L : list Entry) :
  well_grouped g L -> curSeries g <> None ->
  exists g',
    start_major major latest g = Some g' /\ well_grouped g' L /\
    curMajor g' <> None.
Proof.
  intros (I1 & I2 & I3 & I4 & C1 & C2 & C3) Hs. unfold start_major.
  assert (Fresh :
    exists g',
      match curSeries g with
      | None => None
      | Some cs =>
          Some
            {| series_store :=
                 change_at cs
                   (fun s => {| Series := Series s; Series_Latest := Series_Latest s;
                                MajorVersions :=
                                  (MajorVersions s ++ [List.length (major_store g)])%list |})
                   (series_store g);
               major_store :=
                 (major_store g ++
                  [{| Major := major; Major_Latest := latest; MinorVersions := [] |}])%list;
               minor_store := minor_store g;
               svg := svg g;
               curSeries := curSeries g;
               curMajor := Some (List.length (major_store g));
               curMinor := curMinor g |}
      end = Some g' /\ well_grouped g' L /\ curMajor g' <> None).
  { destruct (curSeries g) as [cs|] eqn:Es; [|congruence].
    eexists. split; [reflexivity|]. split; [|discriminate].
    cbn [points_to_last] in C1.
    unfold well_grouped. cbn [series_store major_store minor_store svg
                              curSeries curMajor curMinor points_to_last].
    rewrite length_change_at, length_app, flat_map_last.
    rewrite (flat_map_change_last MajorVersions _ [List.length (major_store g)])
      by (assumption || reflexivity).
    cbn [List.length MinorVersions].
    rewrite app_nil_r, Nat.add_1_r, seq_S, I2. cbn [Nat.add]. auto 10. }
  destruct (curMajor g) as [m|] eqn:Em.
  - destruct (negb _); [exact Fresh|].
    exists g. split; [reflexivity|]. split; [|congruence].
    unfold well_grouped. rewrite Em. auto 10.
  - exact Fresh.
Qed.

Lemma start_minor_grouped (majMin : string) (latest : Entry) (g : groups)
    (L : list Entry) :
  well_grouped g L -> curMajor g <> None ->
  exists g',
    start_minor majMin latest g = Some g' /\ well_grouped g' L /\
    curMinor g' <> None.
Proof.
  intros (I1 & I2 & I3 & I4 & C1 & C2 & C3) Hm. unfold start_minor.
  assert (Fresh :
    exists g',
      match curMajor g with
      | None => None
      | Some cm =>
          Some
            {| series_store := series_store g;
               major_store :=
                 change_at cm
                   (fun m => {| Major := Major m; Major_Latest := Major_Latest m;
                                MinorVersions :=
                                  (MinorVersions m ++ [List.length (minor_store g)])%list |})
                   (major_store g);
               minor_store :=
                 (minor_store g ++
                  [{| Minor := majMin; Minor_Latest := latest; PatchVersions := [] |}])%list;
               svg := svg g;
               curSeries := curSeries g;
               curMajor := curMajor g;
               curMinor := Some (List.length (minor_store g)) |}
      end = Some g' /\ well_grouped g' L /\ curMinor g' <> None).
  { destruct (curMajor g) as [cm|] eqn:Em; [|congruence].
    eexists. split; [reflexivity|]. split; [|discriminate].
    cbn [points_to_last] in C2.
    unfold well_grouped. cbn [series_store major_store minor_store svg
                              curSeries curMajor curMinor points_to_last].
    rewrite length_change_at, length_app, flat_map_last.
    rewrite (flat_map_change_last MinorVersions _ [List.length (minor_store g)])
      by (assumption || reflexivity).
    cbn [List.length PatchVersions].
    rewrite app_nil_r, Nat.add_1_r, seq_S, I3, I4. cbn [Nat.add]. auto 10. }
  destruct (curMinor g) as [n|] eqn:En.
  - destruct (negb _); [exact Fresh|].
    exists g. split; [reflexivity|]. split; [|congruence].
    unfold well_grouped. rewrite En. auto 10.
  - exact Fresh.
Qed.

Lemma add_patch_grouped (latest : Entry) (g : groups) (L : list Entry) :
  well_grouped g L -> curMinor g <> None ->
  exists g', add_patch latest g = Some g' /\ well_grouped g' (L ++ [latest]).
Proof.
  intros (I1 & I2 & I3 & I4 & C1 & C2 & C3) Hn. unfold add_patch.
  destruct (curMinor g) as [cn|] eqn:En; [|congruence].
  eexists. split; [reflexivity|].
  cbn [points_to_last] in C3.
  unfold well_grouped. cbn [series_store major_store minor_store svg
                            curSeries curMajor curMinor points_to_last].
  rewrite length_change_at.
  rewrite (flat_map_change_last PatchVersions _ [latest])
    by (assumption || reflexivity).
  rewrite I4. auto 10.
Qed.

Lemma group_version_grouped (pkg : PackageInfo) (g : groups) (v : VersionInfo)
    (L : list Entry) :
  well_grouped g L ->
  exists g',
    group_version semver_Major semver_MajorMinor pkg g v = Some g' /\
    well_grouped g' (L ++ map (entry_of pkg) (List.filter (taken pkg) [v])).
Proof.
  intros I. unfold group_version, taken. cbn [List.filter].
  destruct (passed_over pkg v).
  - exists g. cbn. now rewrite app_nil_r.
  - cbn [negb map].
    destruct (start_series_grouped (SeriesPath v) (entry_of pkg v) g L I) as [I1 S1].
    destruct (start_major_grouped (semver_Major (V_Version v)) (entry_of pkg v) _ L I1 S1)
      as (g2 & E2 & I2 & S2).
    destruct (start_minor_grouped (semver_MajorMinor (V_Version v)) (entry_of pkg v)
                g2 L I2 S2) as (g3 & E3 & I3 & S3).
    destruct (add_patch_grouped (entry_of pkg v) g3 L I3 S3) as (g4 & E4 & I4).
    exists g4. cbv zeta. rewrite E2. cbn [and_then]. rewrite E3. cbn [and_then].
    now rewrite E4.
Qed.

Lemma group_versions_from (pkg : PackageInfo) (versions : list VersionInfo)
    (g : groups) (L : list Entry) :
  well_grouped g L ->
  exists g',
    fold_left (fun acc v =>
                 and_then acc (fun g => group_version semver_Major semver_MajorMinor pkg g v))
      versions (Some g) = Some g' /\
    well_grouped g' (L ++ map (entry_of pkg) (List.filter (taken pkg) versions)).
Proof.
  revert g L. induction versions as [|v versions IH]; intros g L I.
  - exists g. cbn. now rewrite app_nil_r.
  - cbn [fold_left and_then].
    destruct (group_version_grouped pkg g v L I) as (g1 & E1 & I1).
    rewrite E1. destruct (IH g1 _ I1) as (g' & E' & I').
    exists g'. split; [exact E'|].
    cbn [List.filter] in *.
    destruct (taken pkg v); cbn [map app] in *.
    + now rewrite <- app_assoc in I'.
    + now rewrite app_nil_r in I'.
Qed.

Lemma no_groups_grouped : well_grouped no_groups [].
Proof. unfold well_grouped, no_groups. cbn. auto 10. Qed.

(** X7.  [fetchVersionsDetails] never follows a nil pointer, and it
    loses and reorders nothing: the entries of its groups, read from the
    series down in the order of the lists, are the versions of the
    database that are not passed over, in the order of the database; the
    series groups are listed in the order in which they were made.  The
    versions are the tagged ones, and the pseudo-versions when there is
    no tagged one; an error of either call is handed on. *)
Theorem fetchVersionsDetails_keeps_versions {E : Type}
    (tagged pseudo : list VersionInfo) (pkg : PackageInfo) (e : E)
    (other : result E (list VersionInfo)) :
  (exists g,
      fetchVersionsDetails semver_Major semver_MajorMinor
        (Ok tagged) (Ok (E := E) pseudo) pkg = Some (Ok g) /\
      entries g =
        map (entry_of pkg)
          (List.filter (taken pkg)
             match tagged with [] => pseudo | _ => tagged end) /\
      svg g = seq 0 (List.length (series_store g))) /\
  fetchVersionsDetails semver_Major semver_MajorMinor (Err e) other pkg =
    Some (Err (GetTaggedVersionsFailed E (P_Path pkg) e)) /\
  fetchVersionsDetails semver_Major semver_MajorMinor (Ok []) (Err e) pkg =
    Some (Err (GetPseudoVersionsFailed E (P_Path pkg) e)).
Proof.
  split; [|split; reflexivity].
  destruct (group_versions_from pkg
              match tagged with [] => pseudo | _ => tagged end
              no_groups [] no_groups_grouped) as (g & Eg & Ig).
  exists g. split; [|split].
  - unfold fetchVersionsDetails, group_versions.
    destruct tagged as [|v tagged]; now rewrite Eg.
  - now apply well_grouped_entries.
  - apply Ig.
Qed.

End VersionsFacts.
